(** * QtMips: cache replacement policies and the simulator exception classes

    A shallow embedding of
    - [src/machine/simulator_exception.h]: the exception classes generated by
      the [SIMULATOR_EXCEPTIONS] table;
    - [src/machine/memory/cache/cache_policy.cpp]: the factory
      [CachePolicy::get_policy_instance] and the three policies
      [CachePolicyRAND], [CachePolicyLRU] and [CachePolicyLFU].

    Integers are mathematical ([Z]) with every C++ conversion written out:
    [size_t] is 64 bits wide (LP64), [ssize_t] its signed counterpart and the
    statistics vectors hold [uint32_t]. *)

From Stdlib Require Import ZArith Lia String.
From stdpp Require Import base tactics option numbers list.

Local Open Scope Z_scope.

(** ** Machine integers *)

Definition size_t_modulus : Z := 2 ^ 64.
Definition uint32_modulus : Z := 2 ^ 32.

(** Conversion of an integer value to [size_t]. *)
Definition to_size_t (x : Z) : Z := x mod size_t_modulus.

(** Conversion of an integer value to [ssize_t]. *)
Definition to_ssize_t (x : Z) : Z :=
  let u := x mod size_t_modulus in
  if u <? 2 ^ 63 then u else u - size_t_modulus.

(** Conversion of an integer value to [uint32_t]. *)
Definition to_uint32 (x : Z) : Z := x mod uint32_modulus.

Definition is_size_t (x : Z) : Prop := 0 <= x < size_t_modulus.
Definition is_uint32 (x : Z) : Prop := 0 <= x < uint32_modulus.

(** [std::vector::at]: the element at position [i] (a [size_t] value), [None]
    standing for the [std::out_of_range] it throws when [i >= size()]. *)
Definition vector_at {A : Type} (v : list A) (i : Z) : option A :=
  if (0 <=? i) && (i <? Z.of_nat (length v)) then v !! Z.to_nat i else None.

(** Assignment through the reference returned by [at], for an index that has
    been checked. *)
Definition vector_set {A : Type} (v : list A) (i : Z) (x : A) : list A :=
  <[Z.to_nat i := x]> v.

(** ** The exception classes ([simulator_exception.h]) *)

Module Fault.

(** The [NAME]s of the [SIMULATOR_EXCEPTIONS] table. *)
Inductive kind : Type :=
| Input
| Runtime
| UnsupportedInstruction
| UnsupportedAluOperation
| Overflow
| UnalignedJump
| UnknownMemoryControl
| OutOfMemoryAccess
| Sanity
| SyscallUnknown.

#[global] Instance kind_eq_dec : EqDecision kind.
Proof. solve_decision. Defined.

(** The table itself: [EXCEPTION(NAME, PARENT)], an empty [PARENT] being
    [None]. *)
Definition SIMULATOR_EXCEPTIONS : list (kind * option kind) :=
  [ (Input, None);
    (Runtime, None);
    (UnsupportedInstruction, Some Runtime);
    (UnsupportedAluOperation, Some Runtime);
    (Overflow, Some Runtime);
    (UnalignedJump, Some Runtime);
    (UnknownMemoryControl, Some Runtime);
    (OutOfMemoryAccess, Some Runtime);
    (Sanity, None);
    (SyscallUnknown, Some Runtime) ].

(** The classes a thrown object can have here: the generated ones, their
    common base [SimulatorException], and the standard classes that
    [SimulatorException] and [std::vector::at] bring in. *)
Inductive class : Type :=
| StdException
| StdLogicError
| StdOutOfRange
| SimulatorException
| SimulatorExceptionOf (k : kind).

#[global] Instance class_eq_dec : EqDecision class.
Proof. solve_decision. Defined.

(** [SimulatorException##PARENT]: token pasting with an empty [PARENT] names
    the base class. *)
Definition paste (parent : option kind) : class :=
  match parent with
  | None => SimulatorException
  | Some p => SimulatorExceptionOf p
  end.

Fixpoint table_parent (tbl : list (kind * option kind)) (k : kind) : option class :=
  match tbl with
  | [] => None
  | (name, parent) :: rest =>
      if decide (name = k) then Some (paste parent) else table_parent rest k
  end.

(** The direct base class: [class SimulatorException##NAME : public
    SimulatorException##PARENT], [class SimulatorException : public
    std::exception], and the standard library's
    [out_of_range : logic_error : exception]. *)
Definition base (c : class) : option class :=
  match c with
  | StdException => None
  | StdLogicError => Some StdException
  | StdOutOfRange => Some StdLogicError
  | SimulatorException => Some StdException
  | SimulatorExceptionOf k => table_parent SIMULATOR_EXCEPTIONS k
  end.

(** [derives c d]: class [c] is [d] or has [d] among its bases. *)
Inductive derives : class -> class -> Prop :=
| derives_refl c : derives c c
| derives_base c b d : base c = Some b -> derives b d -> derives c d.

(** A handler [catch (H &e)] catches a thrown object of class [c] exactly
    when [c] derives from [H]. *)
Definition caught_by (handler thrown : class) : Prop := derives thrown handler.

(** The runtime kinds the specification lists. *)
Definition runtime_kinds : list kind :=
  [ UnsupportedInstruction; UnsupportedAluOperation; Overflow; UnalignedJump;
    UnknownMemoryControl; OutOfMemoryAccess; SyscallUnknown ].

End Fault.

(** What a call can throw: the [std::out_of_range] of [std::vector::at], or a
    [SimulatorException] of some kind built by [SIMULATOR_EXCEPTION(TYPE,
    REASON, EXT)].  Of [EXT] only the message passed to [SANITY_EXCEPTION] is
    kept; the fixed preamble, [__FILE__] and [__LINE__] are left out. *)
Inductive exn : Type :=
| std_out_of_range
| simulator_exception (k : Fault.kind) (reason : string) (msg : string).

Definition exn_class (e : exn) : Fault.class :=
  match e with
  | std_out_of_range => Fault.StdOutOfRange
  | simulator_exception k _ _ => Fault.SimulatorExceptionOf k
  end.

(** [SANITY_EXCEPTION(MSG)] *)
Definition SANITY_EXCEPTION (msg : string) : exn :=
  simulator_exception Fault.Sanity "Internal error" msg.

(** The outcome of a call: normal return, a thrown exception, undefined
    behaviour of the C++ abstract machine, or a loop of the model that was
    not given enough iterations. *)
Inductive outcome (A : Type) : Type :=
| Returns (a : A)
| Throws (e : exn)
| Undefined
| OutOfFuel.

Arguments Returns {A} a.
Arguments Throws {A} e.
Arguments Undefined {A}.
Arguments OutOfFuel {A}.

(** [try { ... } catch (std::out_of_range &e) { throw handler; }] *)
Definition catch_out_of_range {A : Type} (body : outcome A) (handler : exn) : outcome A :=
  match body with
  | Throws std_out_of_range => Throws handler
  | other => other
  end.

(** ** [CachePolicyLRU] *)

Module LRU.

Record CachePolicyLRU : Type := mk {
  associativity : Z;            (* size_t *)
  stats : list (list Z);        (* std::vector<std::vector<uint32_t>> *)
}.

(** The row the constructor builds: [push_back(i)] for
    [i = 0 .. associativity - 1], each converted to [uint32_t]. *)
Definition initial_row (associativity : Z) : list Z :=
  to_uint32 <$> seqZ 0 associativity.

(** [CachePolicyLRU::CachePolicyLRU(associativity, set_count)] *)
Definition new (associativity set_count : Z) : CachePolicyLRU :=
  {| associativity := associativity;
     stats := replicate (Z.to_nat set_count) (initial_row associativity) |}.

(** [stats.size()] *)
Definition set_count (p : CachePolicyLRU) : Z := Z.of_nat (length (stats p)).

(** The loop of the [is_valid] branch,
    [do { std::swap(row_stats.at(i), next_way); i--; } while (next_way != way);]
    with [i] an [ssize_t] that [at] converts to [size_t].  One unit of
    [fuel] is one execution of the loop body. *)
Fixpoint pass_back (fuel : nat) (row_stats : list Z) (i next_way way : Z)
  : outcome unit * list Z :=
  match fuel with
  | O => (OutOfFuel, row_stats)
  | S fuel' =>
      match vector_at row_stats (to_size_t i) with
      | None => (Throws std_out_of_range, row_stats)
      | Some x =>
          let row_stats' := vector_set row_stats (to_size_t i) next_way in
          if x =? way
          then (Returns tt, row_stats')
          else pass_back fuel' row_stats' (i - 1) x way
      end
  end.

(** The loop of the other branch, the same with [size_t i = 0] and [i++]. *)
Fixpoint pass_front (fuel : nat) (row_stats : list Z) (i next_way way : Z)
  : outcome unit * list Z :=
  match fuel with
  | O => (OutOfFuel, row_stats)
  | S fuel' =>
      match vector_at row_stats i with
      | None => (Throws std_out_of_range, row_stats)
      | Some x =>
          let row_stats' := vector_set row_stats i next_way in
          if x =? way
          then (Returns tt, row_stats')
          else pass_front fuel' row_stats' (to_size_t (i + 1)) x way
      end
  end.

Definition lost_the_way : exn :=
  SANITY_EXCEPTION "Out of range: LRU lost the way from priority queue.".

(** [CachePolicyLRU::update_stats(way, row, is_valid)].  [row_stats] is a
    reference into [stats], so what the loop has written stays written when
    the loop throws. *)
Definition update_stats (way row : Z) (is_valid : bool) (p : CachePolicyLRU)
  : outcome unit * CachePolicyLRU :=
  match vector_at (stats p) row with
  | None => (Throws lost_the_way, p)
  | Some row_stats =>
      let next_way := to_uint32 way in
      let fuel := S (length row_stats) in
      let '(r, row_stats') :=
        if is_valid
        then pass_back fuel row_stats
               (to_ssize_t (to_size_t (associativity p - 1))) next_way way
        else pass_front fuel row_stats 0 next_way way in
      (catch_out_of_range r lost_the_way,
       {| associativity := associativity p;
          stats := vector_set (stats p) row row_stats' |})
  end.

(** [CachePolicyLRU::select_way_to_evict(row)]: [stats.at(row).at(0)], with
    no handler around it. *)
Definition select_way_to_evict (row : Z) (p : CachePolicyLRU) : outcome Z :=
  match vector_at (stats p) row with
  | None => Throws std_out_of_range
  | Some row_stats =>
      match vector_at row_stats 0 with
      | None => Throws std_out_of_range
      | Some w => Returns w
      end
  end.

(** A sequence of [update_stats] calls, stopping at the first that does not
    return. *)
Fixpoint run (calls : list (Z * Z * bool)) (p : CachePolicyLRU)
  : outcome unit * CachePolicyLRU :=
  match calls with
  | [] => (Returns tt, p)
  | (way, row, is_valid) :: rest =>
      match update_stats way row is_valid p with
      | (Returns _, p') => run rest p'
      | stopped => stopped
      end
  end.

(** An [update_stats] call whose arguments are within the bounds. *)
Definition in_range (associativity set_count : Z) (c : Z * Z * bool) : Prop :=
  let '(way, row, _) := c in
  0 <= way < associativity /\ 0 <= row < set_count.

(** The state invariant: every row orders the ways [0 .. associativity - 1],
    and these fit the [uint32_t] elements. *)
Definition ordered (p : CachePolicyLRU) : Prop :=
  0 <= associativity p <= uint32_modulus /\
  Forall (fun row_stats => row_stats ≡ₚ seqZ 0 (associativity p)) (stats p).

(** The two reorderings as list functions: way [w] taken out of the row and
    put at the back, or at the front. *)
Definition to_back (w : Z) (row_stats : list Z) : list Z :=
  filter (fun x => x <> w) row_stats ++ [w].

Definition to_front (w : Z) (row_stats : list Z) : list Z :=
  w :: filter (fun x => x <> w) row_stats.

(** Hits on the ways [ws] of one row, in order. *)
Definition hits (row : Z) (ws : list Z) : list (Z * Z * bool) :=
  (fun w => (w, row, true)) <$> ws.

End LRU.

(** ** [CachePolicyLFU] *)

Module LFU.

Record CachePolicyLFU : Type := mk {
  stats : list (list Z);        (* std::vector<std::vector<uint32_t>> *)
}.

(** [CachePolicyLFU::CachePolicyLFU(associativity, set_count)] *)
Definition new (associativity set_count : Z) : CachePolicyLFU :=
  {| stats := replicate (Z.to_nat set_count)
                (replicate (Z.to_nat associativity) 0) |}.

Definition set_count (p : CachePolicyLFU) : Z := Z.of_nat (length (stats p)).

(** [CachePolicyLFU::update_stats(way, row, is_valid)]; [stat_item += 1] is
    [uint32_t] arithmetic. *)
Definition update_stats (way row : Z) (is_valid : bool) (p : CachePolicyLFU)
  : outcome unit * CachePolicyLFU :=
  match vector_at (stats p) row with
  | None => (Throws std_out_of_range, p)
  | Some row_stats =>
      match vector_at row_stats way with
      | None => (Throws std_out_of_range, p)
      | Some stat_item =>
          let stat_item' := if is_valid then to_uint32 (stat_item + 1) else 0 in
          (Returns tt,
           {| stats := vector_set (stats p) row
                         (vector_set row_stats way stat_item') |})
      end
  end.

(** The [for] loop of [select_way_to_evict] over the indices still to
    visit. *)
Fixpoint scan (row_stats : list Z) (indices : list Z) (lowest index : Z)
  : outcome Z :=
  match indices with
  | [] => Returns index
  | i :: rest =>
      match vector_at row_stats i with
      | None => Throws std_out_of_range
      | Some c =>
          if c =? 0 then Returns i
          else if lowest >? c then scan row_stats rest c i
          else scan row_stats rest lowest index
      end
  end.

Definition lost_the_way : exn :=
  SANITY_EXCEPTION "Out of range: LRU lost the way from priority queue.".

(** [CachePolicyLFU::select_way_to_evict(row)] *)
Definition select_way_to_evict (row : Z) (p : CachePolicyLFU) : outcome Z :=
  catch_out_of_range
    match vector_at (stats p) row with
    | None => Throws std_out_of_range
    | Some row_stats =>
        match vector_at row_stats 0 with
        | None => Throws std_out_of_range
        | Some lowest =>
            scan row_stats (seqZ 0 (Z.of_nat (length row_stats))) lowest 0
        end
    end
    lost_the_way.

(** The shape of the state: [associativity] counters of type [uint32_t] in
    every row. *)
Definition counters_ok (associativity : Z) (p : CachePolicyLFU) : Prop :=
  Forall (fun row_stats =>
            Z.of_nat (length row_stats) = associativity /\
            Forall is_uint32 row_stats) (stats p).

(** Way [idx] holds the lowest counter of the row, and every way before it
    holds a higher one. *)
Definition first_lowest (row_stats : list Z) (idx : Z) : Prop :=
  exists c,
    vector_at row_stats idx = Some c /\
    (forall j c', vector_at row_stats j = Some c' -> c <= c') /\
    (forall j c', vector_at row_stats j = Some c' -> j < idx -> c < c').

(** An [update_stats] call whose arguments are within the bounds. *)
Definition in_range (associativity set_count : Z) (c : Z * Z * bool) : Prop :=
  let '(way, row, _) := c in
  0 <= way < associativity /\ 0 <= row < set_count.

(** A sequence of [update_stats] calls, stopping at the first that does not
    return. *)
Fixpoint run (calls : list (Z * Z * bool)) (p : CachePolicyLFU)
  : outcome unit * CachePolicyLFU :=
  match calls with
  | [] => (Returns tt, p)
  | (way, row, is_valid) :: rest =>
      match update_stats way row is_valid p with
      | (Returns _, p') => run rest p'
      | stopped => stopped
      end
  end.

(** [n] misses on one row, each served the way a cache serves it: ask for
    the victim, fill it, and mark it valid with [update_stats(victim, row,
    true)].  The victims are collected; a call that does not return ends the
    sequence. *)
Fixpoint fill (n : nat) (row : Z) (p : CachePolicyLFU)
  : list (outcome Z) * CachePolicyLFU :=
  match n with
  | O => ([], p)
  | S n' =>
      match select_way_to_evict row p with
      | Returns victim =>
          match update_stats victim row true p with
          | (Returns _, p') =>
              let '(victims, p'') := fill n' row p' in
              (Returns victim :: victims, p'')
          | (_, p') => ([Returns victim], p')
          end
      | stopped => ([stopped], p)
      end
  end.

End LFU.

(** ** [CachePolicyRAND] *)

(** The C library's generator behind [std::srand] and [std::rand]: one hidden
    state for the whole process.  [srand seed] is the state a call of
    [std::srand(seed)] leaves, whatever the state before (the sequence that
    follows depends on the seed alone, ISO C 7.22.2.2); [rand g] is the
    [int] a call of [std::rand()] returns in state [g], and the state it
    leaves. *)
Class StdRand : Type := {
  rand_state : Type;
  srand : Z -> rand_state;
  rand : rand_state -> Z * rand_state;
}.

(** The portable implementation the C standard gives as an example
    (ISO C 7.22.2.2), with a 64-bit [unsigned long]. *)
#[local] Instance sample_rand : StdRand := {|
  rand_state := Z;
  srand seed := seed mod 2 ^ 32;
  rand next :=
    let next' := (next * 1103515245 + 12345) mod 2 ^ 64 in
    ((next' / 65536) mod 2 ^ 32 mod 32768, next');
|}.

Module RAND.
Section Generator.
Context `{StdRand}.

Record CachePolicyRAND : Type := mk {
  associativity : Z;          (* size_t *)
}.

(** [CachePolicyRAND::CachePolicyRAND(associativity)]: [std::srand(1)]. *)
Definition new (associativity : Z) (g : rand_state)
  : CachePolicyRAND * rand_state :=
  ({| associativity := associativity |}, srand 1).

(** [CachePolicyRAND::update_stats]: [// NOP] *)
Definition update_stats (way row : Z) (is_valid : bool)
    (p : CachePolicyRAND) (g : rand_state)
  : outcome unit * CachePolicyRAND * rand_state :=
  (Returns tt, p, g).

(** [CachePolicyRAND::select_way_to_evict(row)]:
    [std::rand() % associativity], the [int] converted to [size_t]. *)
Definition select_way_to_evict (row : Z) (p : CachePolicyRAND)
    (g : rand_state) : outcome Z * rand_state :=
  let '(r, g') := rand g in
  if associativity p =? 0
  then (Undefined, g')
  else (Returns (to_size_t r mod associativity p), g').

(** A call on a policy object. *)
Inductive call : Type :=
| UpdateStats (way row : Z) (is_valid : bool)
| SelectWayToEvict (row : Z).

(** The values the [select_way_to_evict] calls among [calls] return, in
    order. *)
Fixpoint evictions (calls : list call) (p : CachePolicyRAND)
    (g : rand_state) : list (outcome Z) :=
  match calls with
  | [] => []
  | UpdateStats way row is_valid :: rest =>
      let '(_, p', g') := update_stats way row is_valid p g in
      evictions rest p' g'
  | SelectWayToEvict row :: rest =>
      let '(v, g') := select_way_to_evict row p g in
      v :: evictions rest p g'
  end.

(** A fresh instance, built in a process whose generator is in state
    [g], then driven by [calls]. *)
Definition fresh_run (associativity : Z) (calls : list call)
    (g : rand_state) : list (outcome Z) :=
  let '(p, g') := new associativity g in
  evictions calls p g'.

(** The number of [select_way_to_evict] calls among [calls]. *)
Fixpoint selects (calls : list call) : nat :=
  match calls with
  | [] => O
  | UpdateStats _ _ _ :: rest => selects rest
  | SelectWayToEvict _ :: rest => S (selects rest)
  end.

End Generator.
End RAND.

(** ** The factory *)

Module Factory.

(** [CacheConfig::ReplacementPolicy] *)
Inductive ReplacementPolicy : Type := RP_RAND | RP_LRU | RP_LFU.

(** Modelled from the spec: [CacheConfig], whose declaration is not among
    the sources: [{enabled: bool, associativity: uint>0, set_count: uint>0,
    replacement_policy: enum{Random, LRU, LFU}}]. *)
Record CacheConfig : Type := {
  enabled : bool;
  associativity : Z;
  set_count : Z;
  replacement_policy : ReplacementPolicy;
}.

(** The call ended by throwing a [SimulatorException] of kind [k]. *)
Definition throws_kind {A : Type} (k : Fault.kind) (o : outcome A) : Prop :=
  exists e, o = Throws e /\ exn_class e = Fault.SimulatorExceptionOf k.

Section Generator.
Context `{StdRand}.

(** The object behind a [std::unique_ptr<CachePolicy>]: one of the three
    classes deriving from [CachePolicy]. *)
Inductive CachePolicy : Type :=
| PolicyRAND (p : RAND.CachePolicyRAND)
| PolicyLRU (p : LRU.CachePolicyLRU)
| PolicyLFU (p : LFU.CachePolicyLFU).

Definition variant (p : CachePolicy) : ReplacementPolicy :=
  match p with
  | PolicyRAND _ => RP_RAND
  | PolicyLRU _ => RP_LRU
  | PolicyLFU _ => RP_LFU
  end.

(** [CachePolicy::get_policy_instance(config)]; [None] is the
    [nullptr]. *)
Definition get_policy_instance (config : CacheConfig) (g : rand_state)
  : option CachePolicy * rand_state :=
  if enabled config then
    match replacement_policy config with
    | RP_RAND =>
        let '(p, g') := RAND.new (associativity config) g in
        (Some (PolicyRAND p), g')
    | RP_LRU =>
        (Some (PolicyLRU (LRU.new (associativity config) (set_count config))), g)
    | RP_LFU =>
        (Some (PolicyLFU (LFU.new (associativity config) (set_count config))), g)
    end
  else (None, g).

(** The virtual calls. *)
Definition update_stats (way row : Z) (is_valid : bool) (p : CachePolicy)
    (g : rand_state) : outcome unit * CachePolicy * rand_state :=
  match p with
  | PolicyRAND q =>
      let '(r, q', g') := RAND.update_stats way row is_valid q g in
      (r, PolicyRAND q', g')
  | PolicyLRU q =>
      let '(r, q') := LRU.update_stats way row is_valid q in
      (r, PolicyLRU q', g)
  | PolicyLFU q =>
      let '(r, q') := LFU.update_stats way row is_valid q in
      (r, PolicyLFU q', g)
  end.

Definition select_way_to_evict (row : Z) (p : CachePolicy) (g : rand_state)
  : outcome Z * rand_state :=
  match p with
  | PolicyRAND q => RAND.select_way_to_evict row q g
  | PolicyLRU q => (LRU.select_way_to_evict row q, g)
  | PolicyLFU q => (LFU.select_way_to_evict row q, g)
  end.

(** A call whose arguments are within the configured bounds. *)
Definition call_in_range (associativity set_count : Z) (c : RAND.call) : Prop :=
  match c with
  | RAND.UpdateStats way row _ =>
      0 <= way < associativity /\ 0 <= row < set_count
  | RAND.SelectWayToEvict row => 0 <= row < set_count
  end.

(** A sequence of calls through the [CachePolicy] interface: the victims
    returned, or the first outcome that is not a return. *)
Fixpoint drive (calls : list RAND.call) (p : CachePolicy) (g : rand_state)
  : outcome (list Z) * CachePolicy * rand_state :=
  match calls with
  | [] => (Returns [], p, g)
  | RAND.UpdateStats way row is_valid :: rest =>
      match update_stats way row is_valid p g with
      | (Returns _, p', g') => drive rest p' g'
      | (Throws e, p', g') => (Throws e, p', g')
      | (Undefined, p', g') => (Undefined, p', g')
      | (OutOfFuel, p', g') => (OutOfFuel, p', g')
      end
  | RAND.SelectWayToEvict row :: rest =>
      match select_way_to_evict row p g with
      | (Returns victim, g') =>
          match drive rest p g' with
          | (Returns victims, p', g'') => (Returns (victim :: victims), p', g'')
          | stopped => stopped
          end
      | (Throws e, g') => (Throws e, p, g')
      | (Undefined, g') => (Undefined, p, g')
      | (OutOfFuel, g') => (OutOfFuel, p, g')
      end
  end.

(** The state of an instance serving a cache of [associativity] ways and
    [set_count] sets. *)
Definition serves (associativity set_count : Z) (p : CachePolicy) : Prop :=
  match p with
  | PolicyRAND q => RAND.associativity q = associativity
  | PolicyLRU q =>
      LRU.ordered q /\ LRU.associativity q = associativity /\
      LRU.set_count q = set_count
  | PolicyLFU q =>
      LFU.counters_ok associativity q /\ LFU.set_count q = set_count
  end.

End Generator.
End Factory.

(** ** Theorems *)

Module FaultFacts.
Import Fault.

Lemma derives_inv c d :
  derives c d -> c = d \/ exists b, base c = Some b /\ derives b d.
Proof. intros H. inversion H; subst; eauto. Qed.

Lemma std_exception_top d : derives StdException d -> d = StdException.
Proof.
  intros H. apply derives_inv in H as [H | (b & Hb & _)]; [done | discriminate].
Qed.

Lemma simulator_exception_bases d :
  derives SimulatorException d -> d = SimulatorException \/ d = StdException.
Proof.
  intros H. apply derives_inv in H as [H | (b & Hb & H)]; [by left |].
  simpl in Hb. injection Hb as <-. right. by apply std_exception_top.
Qed.

Lemma root_bases k d :
  base (SimulatorExceptionOf k) = Some SimulatorException ->
  derives (SimulatorExceptionOf k) d ->
  d = SimulatorExceptionOf k \/ d = SimulatorException \/ d = StdException.
Proof.
  intros Hk H. apply derives_inv in H as [H | (b & Hb & H)]; [by left |].
  rewrite Hk in Hb. injection Hb as <-. right.
  by apply simulator_exception_bases.
Qed.

(** C8: each of the seven runtime kinds derives directly from [Runtime] and
    is the base of no class; [Input], [Runtime] and [Sanity] all derive
    directly from the common base; a [Sanity] object is caught neither by a
    [Runtime] handler nor by an [Input] handler. *)
Theorem sanity_is_sibling_root :
  (forall k, k ∈ runtime_kinds ->
     base (SimulatorExceptionOf k) = Some (SimulatorExceptionOf Runtime) /\
     forall c, base c <> Some (SimulatorExceptionOf k)) /\
  base (SimulatorExceptionOf Sanity) = Some SimulatorException /\
  base (SimulatorExceptionOf Runtime) = Some SimulatorException /\
  base (SimulatorExceptionOf Input) = Some SimulatorException /\
  ~ caught_by (SimulatorExceptionOf Runtime) (SimulatorExceptionOf Sanity) /\
  ~ caught_by (SimulatorExceptionOf Input) (SimulatorExceptionOf Sanity).
Proof.
  split; [| repeat split].
  - intros k Hk. unfold runtime_kinds in Hk.
    rewrite !elem_of_cons, elem_of_nil in Hk. split.
    + destruct k; try reflexivity; exfalso; intuition discriminate.
    + intros [| | | | j] Hc; try discriminate.
      destruct j; simpl in Hc; try discriminate;
        injection Hc as Hc; subst k; intuition discriminate.
  - intros H. apply root_bases in H as [H | [H | H]]; done.
  - intros H. apply root_bases in H as [H | [H | H]]; done.
Qed.

End FaultFacts.

(** *** Vectors and conversions *)

Lemma to_size_t_id x : is_size_t x -> to_size_t x = x.
Proof. intros Hx. unfold to_size_t. by apply Z.mod_small. Qed.

Lemma to_uint32_id x : is_uint32 x -> to_uint32 x = x.
Proof. intros Hx. unfold to_uint32. by apply Z.mod_small. Qed.

Lemma to_ssize_t_id x : - 2 ^ 63 <= x < 2 ^ 63 -> to_ssize_t (to_size_t x) = x.
Proof.
  intros Hx. unfold to_ssize_t, to_size_t, size_t_modulus.
  rewrite Z.mod_mod by lia.
  destruct (Z_lt_le_dec x 0) as [Hneg | Hpos].
  - replace (x mod 2 ^ 64) with (x + 2 ^ 64).
    + destruct (Z.ltb_spec (x + 2 ^ 64) (2 ^ 63)); lia.
    + apply (Z.mod_unique_pos _ _ (-1)); lia.
  - rewrite Z.mod_small by lia.
    destruct (Z.ltb_spec x (2 ^ 63)); lia.
Qed.

Lemma to_size_t_minus_one : to_size_t (-1) = size_t_modulus - 1.
Proof. reflexivity. Qed.

Section Vector.
Context {A : Type}.
Implicit Types (v : list A) (i : Z) (x : A).

Lemma vector_at_Some v i x :
  vector_at v i = Some x <-> 0 <= i /\ v !! Z.to_nat i = Some x.
Proof.
  unfold vector_at. split.
  - destruct (Z.leb_spec 0 i), (Z.ltb_spec i (Z.of_nat (length v)));
      simpl; intros Hx; try discriminate. done.
  - intros [Hi Hx]. apply lookup_lt_Some in Hx as Hlt.
    destruct (Z.leb_spec 0 i), (Z.ltb_spec i (Z.of_nat (length v)));
      simpl; try lia. done.
Qed.

Lemma vector_at_None v i :
  vector_at v i = None <-> i < 0 \/ Z.of_nat (length v) <= i.
Proof.
  unfold vector_at. split.
  - destruct (Z.leb_spec 0 i), (Z.ltb_spec i (Z.of_nat (length v)));
      simpl; intros Hx; try lia.
    apply lookup_ge_None_1 in Hx. lia.
  - intros Hi.
    destruct (Z.leb_spec 0 i), (Z.ltb_spec i (Z.of_nat (length v)));
      simpl; try lia; done.
Qed.

Lemma vector_at_in_range v i :
  0 <= i < Z.of_nat (length v) -> exists x, vector_at v i = Some x.
Proof.
  intros Hi. destruct (vector_at v i) as [x |] eqn:Hx; [eauto |].
  apply vector_at_None in Hx. lia.
Qed.

Lemma vector_at_nat v (n : nat) : vector_at v (Z.of_nat n) = v !! n.
Proof.
  destruct (v !! n) as [x |] eqn:Hx.
  - apply vector_at_Some. rewrite Nat2Z.id. split; [lia | done].
  - apply vector_at_None. apply lookup_ge_None_1 in Hx. lia.
Qed.

Lemma vector_at_middle v1 v2 x i :
  i = Z.of_nat (length v1) -> vector_at (v1 ++ x :: v2) i = Some x.
Proof. intros ->. rewrite vector_at_nat. by apply list_lookup_middle. Qed.

Lemma vector_set_middle v1 v2 x y i :
  i = Z.of_nat (length v1) -> vector_set (v1 ++ x :: v2) i y = v1 ++ y :: v2.
Proof.
  intros ->. unfold vector_set. rewrite Nat2Z.id.
  replace (length v1) with (length v1 + 0)%nat at 1 by lia.
  by rewrite insert_app_r.
Qed.

Lemma vector_at_set_eq v i x :
  0 <= i < Z.of_nat (length v) -> vector_at (vector_set v i x) i = Some x.
Proof.
  intros Hi. apply vector_at_Some. split; [lia |].
  unfold vector_set. apply list_lookup_insert_eq. lia.
Qed.

Lemma vector_at_set_ne v i j x :
  0 <= i -> 0 <= j -> i <> j -> vector_at (vector_set v i x) j = vector_at v j.
Proof.
  intros Hi Hj Hne. unfold vector_at, vector_set.
  rewrite length_insert, list_lookup_insert_ne by lia. done.
Qed.

Lemma vector_set_length v i x : length (vector_set v i x) = length v.
Proof. apply length_insert. Qed.

End Vector.

(** *** The two passes of [CachePolicyLRU::update_stats] *)

(** Equations between lists that differ only in how [++] is nested. *)
Ltac reassoc :=
  repeat (progress (rewrite <- ?app_assoc; cbn [app])); reflexivity.

Module LRUFacts.
Import LRU.

(** The pass towards the front finds [w] behind [l1]: everything between
    [w] and the part already written moves one place down and the carried
    way lands behind it. *)
Lemma pass_back_found l2 : forall fuel l1 written w nw,
  w ∉ l2 ->
  Z.of_nat (length (l1 ++ w :: l2 ++ written)) <= size_t_modulus ->
  (length l2 < fuel)%nat ->
  pass_back fuel (l1 ++ w :: l2 ++ written)
    (Z.of_nat (length l1 + length l2)) nw w
  = (Returns tt, l1 ++ l2 ++ nw :: written).
Proof.
  induction l2 as [| x l2 IH] using rev_ind;
    intros fuel l1 written w nw Hw Hlen Hfuel;
    (destruct fuel as [| fuel]; [simpl in Hfuel; lia |]).
  - simpl. rewrite length_app in Hlen. simpl in Hlen.
    rewrite to_size_t_id by (unfold is_size_t; lia).
    rewrite vector_at_middle by lia. rewrite Z.eqb_refl.
    by rewrite vector_set_middle by lia.
  - rewrite elem_of_app, list_elem_of_singleton in Hw.
    rewrite !length_app in Hlen, Hfuel. simpl in Hlen, Hfuel.
    rewrite !length_app in Hlen. simpl in Hlen.
    replace (l1 ++ w :: (l2 ++ [x]) ++ written)
      with ((l1 ++ w :: l2) ++ x :: written)
      by reassoc.
    cbn [pass_back]. rewrite length_app. simpl length.
    rewrite to_size_t_id by (unfold is_size_t; lia).
    rewrite vector_at_middle by (rewrite length_app; simpl; lia).
    rewrite vector_set_middle by (rewrite length_app; simpl; lia).
    destruct (Z.eqb_spec x w) as [-> | Hne]; [tauto |].
    replace (Z.of_nat (length l1 + (length l2 + 1)) - 1)
      with (Z.of_nat (length l1 + length l2)) by lia.
    replace ((l1 ++ w :: l2) ++ nw :: written)
      with (l1 ++ w :: l2 ++ nw :: written) by reassoc.
    rewrite IH.
    + reassoc.
    + tauto.
    + rewrite !length_app. simpl. rewrite length_app. simpl. lia.
    + lia.
Qed.

(** The pass towards the back finds [w] behind [l1]: [l1] moves one place
    up and the carried way lands before it. *)
Lemma pass_front_found l1 : forall fuel written l2 w nw,
  w ∉ l1 ->
  Z.of_nat (length (written ++ l1 ++ w :: l2)) < size_t_modulus ->
  (length l1 < fuel)%nat ->
  pass_front fuel (written ++ l1 ++ w :: l2) (Z.of_nat (length written)) nw w
  = (Returns tt, written ++ nw :: l1 ++ l2).
Proof.
  induction l1 as [| x l1 IH]; intros fuel written l2 w nw Hw Hlen Hfuel;
    (destruct fuel as [| fuel]; [simpl in Hfuel; lia |]).
  - simpl. rewrite vector_at_middle by done. rewrite Z.eqb_refl.
    by rewrite vector_set_middle by done.
  - rewrite elem_of_cons in Hw.
    rewrite !length_app in Hlen. simpl in Hlen, Hfuel.
    rewrite ?length_app in Hlen. simpl in Hlen.
    cbn [pass_front app].
    rewrite vector_at_middle by done. rewrite vector_set_middle by done.
    destruct (Z.eqb_spec x w) as [-> | Hne]; [tauto |].
    rewrite to_size_t_id by (unfold is_size_t; lia).
    replace (written ++ nw :: l1 ++ w :: l2)
      with ((written ++ [nw]) ++ l1 ++ w :: l2) by reassoc.
    replace (Z.of_nat (length written) + 1)
      with (Z.of_nat (length (written ++ [nw])))
      by (rewrite length_app; simpl; lia).
    rewrite IH.
    + reassoc.
    + tauto.
    + rewrite !length_app. simpl. lia.
    + lia.
Qed.

(** A way that is not in the part still to visit makes the pass run off
    the row. *)
Lemma pass_back_lost pre : forall fuel written nw way,
  way ∉ pre ->
  Z.of_nat (length (pre ++ written)) < size_t_modulus ->
  (length pre < fuel)%nat ->
  exists row',
    pass_back fuel (pre ++ written) (Z.of_nat (length pre) - 1) nw way
    = (Throws std_out_of_range, row').
Proof.
  induction pre as [| x pre IH] using rev_ind;
    intros fuel written nw way Hw Hlen Hfuel;
    (destruct fuel as [| fuel]; [simpl in Hfuel; lia |]).
  - exists written. change (Z.of_nat (@length Z []) - 1) with (-1).
    cbn [pass_back app]. rewrite to_size_t_minus_one.
    replace (vector_at written (size_t_modulus - 1)) with (@None Z); [done |].
    symmetry. apply vector_at_None. simpl in Hlen. lia.
  - rewrite elem_of_app, list_elem_of_singleton in Hw.
    rewrite !length_app in Hlen. simpl in Hlen.
    rewrite length_app in Hfuel. simpl in Hfuel.
    rewrite <- app_assoc. simpl.
    rewrite length_app. simpl length.
    replace (Z.of_nat (length pre + 1) - 1) with (Z.of_nat (length pre)) by lia.
    rewrite to_size_t_id by (unfold is_size_t; lia).
    rewrite vector_at_middle by done. rewrite vector_set_middle by done.
    destruct (Z.eqb_spec x way) as [-> | Hne]; [tauto |].
    apply IH; [tauto | rewrite length_app; simpl; lia | lia].
Qed.

Lemma pass_front_lost rest : forall fuel written nw way,
  way ∉ rest ->
  Z.of_nat (length (written ++ rest)) < size_t_modulus ->
  (length rest < fuel)%nat ->
  exists row',
    pass_front fuel (written ++ rest) (Z.of_nat (length written)) nw way
    = (Throws std_out_of_range, row').
Proof.
  induction rest as [| x rest IH]; intros fuel written nw way Hw Hlen Hfuel;
    (destruct fuel as [| fuel]; [simpl in Hfuel; lia |]).
  - exists (written ++ []). cbn [pass_front].
    replace (vector_at (written ++ []) (Z.of_nat (length written)))
      with (@None Z); [done |].
    symmetry. apply vector_at_None. rewrite length_app. simpl. lia.
  - rewrite elem_of_cons in Hw.
    rewrite !length_app in Hlen. simpl in Hlen, Hfuel.
    cbn [pass_front].
    rewrite vector_at_middle by done. rewrite vector_set_middle by done.
    destruct (Z.eqb_spec x way) as [-> | Hne]; [tauto |].
    rewrite to_size_t_id by (unfold is_size_t; lia).
    replace (written ++ nw :: rest) with ((written ++ [nw]) ++ rest)
      by reassoc.
    replace (Z.of_nat (length written) + 1)
      with (Z.of_nat (length (written ++ [nw])))
      by (rewrite length_app; simpl; lia).
    apply IH; [tauto | rewrite !length_app; simpl; lia | lia].
Qed.


(** *** The loops end

    [std::vector::max_size()] keeps every row shorter than [2^63]; the fuel
    [update_stats] hands to its loop is then never used up. *)

Lemma to_ssize_t_range x : - 2 ^ 63 <= to_ssize_t x < 2 ^ 63.
Proof.
  unfold to_ssize_t, size_t_modulus.
  pose proof (Z.mod_pos_bound x (2 ^ 64)) as Hm.
  destruct (Z.ltb_spec (x mod 2 ^ 64) (2 ^ 63)); lia.
Qed.

Lemma checked_index (row_stats : list Z) i x :
  Z.of_nat (length row_stats) <= 2 ^ 63 -> - 2 ^ 63 <= i < 2 ^ 63 ->
  vector_at row_stats (to_size_t i) = Some x ->
  0 <= i < Z.of_nat (length row_stats).
Proof.
  intros Hlen Hi Hx. apply vector_at_Some in Hx as [_ Hx%lookup_lt_Some].
  destruct (Z_lt_le_dec i 0) as [Hneg | Hpos].
  - assert (to_size_t i = i + 2 ^ 64) as Heq.
    { unfold to_size_t, size_t_modulus. symmetry.
      apply (Z.mod_unique_pos _ _ (-1)); lia. }
    rewrite Heq in Hx. lia.
  - rewrite to_size_t_id in Hx by (unfold is_size_t, size_t_modulus; lia). lia.
Qed.

Lemma pass_back_terminates fuel : forall row_stats i nw way,
  Z.of_nat (length row_stats) <= 2 ^ 63 -> - 2 ^ 63 <= i < 2 ^ 63 ->
  (0 < fuel)%nat ->
  (0 <= i < Z.of_nat (length row_stats) -> i + 2 <= Z.of_nat fuel) ->
  (pass_back fuel row_stats i nw way).1 <> OutOfFuel.
Proof.
  induction fuel as [| fuel IH]; intros row_stats i nw way Hlen Hi Hpos Hfuel;
    [lia |].
  cbn [pass_back].
  destruct (vector_at row_stats (to_size_t i)) as [x |] eqn:Hx; [| done].
  pose proof (checked_index _ _ _ Hlen Hi Hx) as Hin.
  destruct (x =? way); [done |].
  apply IH; rewrite ?vector_set_length; lia.
Qed.

Lemma pass_front_terminates fuel : forall row_stats i nw way,
  Z.of_nat (length row_stats) <= 2 ^ 63 -> 0 <= i ->
  (0 < fuel)%nat ->
  (i < Z.of_nat (length row_stats) ->
   Z.of_nat (length row_stats) - i + 1 <= Z.of_nat fuel) ->
  (pass_front fuel row_stats i nw way).1 <> OutOfFuel.
Proof.
  induction fuel as [| fuel IH]; intros row_stats i nw way Hlen Hi Hpos Hfuel;
    [lia |].
  cbn [pass_front].
  destruct (vector_at row_stats i) as [x |] eqn:Hx; [| done].
  apply vector_at_Some in Hx as [_ Hx%lookup_lt_Some].
  destruct (x =? way); [done |].
  rewrite to_size_t_id by (unfold is_size_t, size_t_modulus; lia).
  apply IH; rewrite ?vector_set_length; lia.
Qed.

Lemma update_stats_terminates way row is_valid p :
  Forall (fun row_stats => Z.of_nat (length row_stats) <= 2 ^ 63) (stats p) ->
  (update_stats way row is_valid p).1 <> OutOfFuel.
Proof.
  intros Hmax. unfold update_stats.
  destruct (vector_at (stats p) row) as [row_stats |] eqn:Hr; [| done].
  apply vector_at_Some in Hr as [_ Hr].
  pose proof (Forall_lookup_1 _ _ _ _ Hmax Hr) as Hlen. simpl in Hlen.
  assert (forall r : outcome unit,
            r <> OutOfFuel -> catch_out_of_range r lost_the_way <> OutOfFuel)
    as Hcatch by (by intros [| [] | |]).
  destruct is_valid.
  - pose proof (pass_back_terminates (S (length row_stats)) row_stats
                  (to_ssize_t (to_size_t (associativity p - 1)))
                  (to_uint32 way) way Hlen (to_ssize_t_range _)) as Hpass.
    destruct (pass_back _ _ _ _ _) as [r row']. simpl in *.
    apply Hcatch, Hpass; lia.
  - pose proof (pass_front_terminates (S (length row_stats)) row_stats 0
                  (to_uint32 way) way Hlen) as Hpass.
    destruct (pass_front _ _ _ _ _) as [r row']. simpl in *.
    apply Hcatch, Hpass; lia.
Qed.

(** *** The invariant *)

Lemma initial_row_ascending assoc :
  assoc <= uint32_modulus -> initial_row assoc = seqZ 0 assoc.
Proof.
  intros Ha. unfold initial_row. rewrite <- (list_fmap_id (seqZ 0 assoc)) at 2.
  apply Forall_fmap_ext_1, Forall_forall. intros x Hx.
  apply elem_of_seqZ in Hx. apply to_uint32_id. unfold id, is_uint32. lia.
Qed.

Lemma new_ordered assoc sc :
  0 <= assoc <= uint32_modulus -> ordered (new assoc sc).
Proof.
  intros Ha. split; [done |]. simpl. apply Forall_replicate.
  by rewrite initial_row_ascending by lia.
Qed.

Lemma new_set_count assoc sc : 0 <= sc -> set_count (new assoc sc) = sc.
Proof. intros Hsc. unfold set_count. simpl. rewrite length_replicate. lia. Qed.

(** What the invariant says about one row and one way of it. *)
Lemma ordered_row p r row_stats :
  ordered p -> vector_at (stats p) r = Some row_stats ->
  row_stats ≡ₚ seqZ 0 (associativity p) /\
  NoDup row_stats /\
  Z.of_nat (length row_stats) = associativity p.
Proof.
  intros [Ha Hrows] Hr. apply vector_at_Some in Hr as [_ Hr].
  pose proof (Forall_lookup_1 _ _ _ _ Hrows Hr) as Hperm. simpl in Hperm.
  split; [done |]. split.
  - rewrite Hperm. apply NoDup_seqZ.
  - rewrite Hperm, length_seqZ. lia.
Qed.

Lemma ordered_split p r row_stats w :
  ordered p -> vector_at (stats p) r = Some row_stats ->
  0 <= w < associativity p ->
  exists l1 l2, row_stats = l1 ++ w :: l2 /\ (w ∉ l1) /\ (w ∉ l2).
Proof.
  intros Hp Hr Hw. destruct (ordered_row _ _ _ Hp Hr) as (Hperm & Hnd & _).
  assert (w ∈ row_stats) as Hin by (rewrite Hperm; apply elem_of_seqZ; lia).
  apply list_elem_of_split in Hin as (l1 & l2 & ->).
  exists l1, l2. split; [done |].
  apply NoDup_app in Hnd as (_ & Hl1 & Hnd).
  apply NoDup_cons in Hnd as [Hl2 _]. split; [| done].
  intros Hin. apply (Hl1 _ Hin). left.
Qed.

Lemma ordered_set_row p r row_stats row_stats' :
  ordered p -> vector_at (stats p) r = Some row_stats ->
  row_stats' ≡ₚ row_stats ->
  ordered (mk (associativity p) (vector_set (stats p) r row_stats')).
Proof.
  intros Hp Hr Hperm. destruct (ordered_row _ _ _ Hp Hr) as (Hrow & _).
  destruct Hp as [Ha Hrows]. split; [done |]. simpl.
  apply Forall_insert; [done |]. by rewrite Hperm.
Qed.

(** *** [update_stats] on a row that holds the way *)

Lemma update_stats_hit p w r l1 l2 :
  ordered p -> vector_at (stats p) r = Some (l1 ++ w :: l2) ->
  update_stats w r true p
  = (Returns tt, mk (associativity p) (vector_set (stats p) r (l1 ++ l2 ++ [w]))).
Proof.
  intros Hp Hr. destruct (ordered_row _ _ _ Hp Hr) as (Hperm & Hnd & Hlen).
  assert (w ∈ seqZ 0 (associativity p)) as Hw
    by (rewrite <- Hperm, elem_of_app, elem_of_cons; tauto).
  apply elem_of_seqZ in Hw. destruct Hp as [Ha _].
  unfold uint32_modulus in Ha.
  apply NoDup_app in Hnd as (_ & _ & Hnd). apply NoDup_cons in Hnd as [Hl2 _].
  unfold update_stats. rewrite Hr.
  rewrite to_uint32_id by (unfold is_uint32, uint32_modulus; lia).
  rewrite to_ssize_t_id by lia.
  rewrite length_app in Hlen. simpl in Hlen.
  replace (associativity p - 1) with (Z.of_nat (length l1 + length l2)) by lia.
  replace (l1 ++ w :: l2) with (l1 ++ w :: l2 ++ []) at 2 by (by rewrite app_nil_r).
  rewrite pass_back_found; [done | done | |].
  - rewrite app_nil_r, length_app. simpl. unfold size_t_modulus. lia.
  - rewrite length_app. simpl. lia.
Qed.

Lemma update_stats_invalidate p w r l1 l2 :
  ordered p -> vector_at (stats p) r = Some (l1 ++ w :: l2) ->
  update_stats w r false p
  = (Returns tt, mk (associativity p) (vector_set (stats p) r (w :: l1 ++ l2))).
Proof.
  intros Hp Hr. destruct (ordered_row _ _ _ Hp Hr) as (Hperm & Hnd & Hlen).
  assert (w ∈ seqZ 0 (associativity p)) as Hw
    by (rewrite <- Hperm, elem_of_app, elem_of_cons; tauto).
  apply elem_of_seqZ in Hw. destruct Hp as [Ha _].
  unfold uint32_modulus in Ha.
  apply NoDup_app in Hnd as (_ & Hl1 & _).
  unfold update_stats. rewrite Hr.
  rewrite to_uint32_id by (unfold is_uint32, uint32_modulus; lia).
  rewrite length_app in Hlen. simpl in Hlen.
  pose proof (pass_front_found l1 (S (length (l1 ++ w :: l2))) [] l2 w w) as Hpass.
  change (Z.of_nat (@length Z [])) with 0 in Hpass. cbn [app] in Hpass.
  rewrite Hpass; [done | | |].
  - intros Hin. apply (Hl1 _ Hin). left.
  - rewrite length_app. simpl. unfold size_t_modulus. lia.
  - rewrite length_app. simpl. lia.
Qed.

(** An in-range call returns and keeps the invariant. *)
Lemma lru_update_stats_in_range p w r is_valid :
  ordered p -> 0 <= w < associativity p -> 0 <= r < set_count p ->
  exists p',
    update_stats w r is_valid p = (Returns tt, p') /\
    ordered p' /\ associativity p' = associativity p /\
    set_count p' = set_count p.
Proof.
  intros Hp Hw Hr.
  destruct (vector_at_in_range (stats p) r Hr) as [row_stats Hrow].
  destruct (ordered_split _ _ _ _ Hp Hrow Hw) as (l1 & l2 & -> & _ & _).
  destruct is_valid.
  - eexists. split; [by apply update_stats_hit |]. split; [| split; [done |]].
    + apply (ordered_set_row _ _ _ _ Hp Hrow).
      apply Permutation_app_head. symmetry. apply Permutation_cons_append.
    + unfold set_count. simpl. by rewrite vector_set_length.
  - eexists. split; [by apply update_stats_invalidate |].
    split; [| split; [done |]].
    + apply (ordered_set_row _ _ _ _ Hp Hrow).
      apply Permutation_middle.
    + unfold set_count. simpl. by rewrite vector_set_length.
Qed.

Lemma run_in_range calls : forall p,
  ordered p -> Forall (in_range (associativity p) (set_count p)) calls ->
  exists p',
    run calls p = (Returns tt, p') /\
    ordered p' /\ associativity p' = associativity p /\
    set_count p' = set_count p.
Proof.
  induction calls as [| [[w r] v] calls IH]; intros p Hp Hcalls.
  - exists p. done.
  - apply Forall_cons in Hcalls as [[Hw Hr] Hcalls].
    destruct (lru_update_stats_in_range p w r v Hp Hw Hr)
      as (p1 & Hstep & Hp1 & Ha1 & Hs1).
    destruct (IH p1 Hp1) as (p' & Hrun & Hp' & Ha' & Hs').
    { by rewrite Ha1, Hs1. }
    exists p'. simpl. rewrite Hstep.
    split; [done |]. split; [done |]. split; congruence.
Qed.

(** C2: after construction and after any sequence of [update_stats] calls
    with in-range [way] and [row], every call has returned and every row
    of the state is a permutation of [0 .. associativity - 1]. *)
Theorem order_is_permutation assoc sc calls :
  0 <= assoc <= uint32_modulus -> 0 <= sc ->
  Forall (in_range assoc sc) calls ->
  exists p',
    run calls (new assoc sc) = (Returns tt, p') /\
    associativity p' = assoc /\ set_count p' = sc /\
    forall row, 0 <= row < sc ->
      exists row_stats,
        vector_at (stats p') row = Some row_stats /\
        row_stats ≡ₚ seqZ 0 assoc.
Proof.
  intros Ha Hsc Hcalls.
  destruct (run_in_range calls (new assoc sc)) as (p' & Hrun & Hp' & Ha' & Hs').
  { by apply new_ordered. }
  { by rewrite new_set_count. }
  rewrite new_set_count in Hs' by done. simpl in Ha'.
  exists p'. split; [done |]. split; [done |]. split; [done |].
  intros row Hrow.
  destruct (vector_at_in_range (stats p') row) as [row_stats Hr].
  { unfold set_count in Hs'. lia. }
  exists row_stats. split; [done |].
  destruct (ordered_row _ _ _ Hp' Hr) as (Hperm & _). by rewrite <- Ha'.
Qed.

(** C2: witness with a two-way, two-set cache. *)
Lemma order_is_permutation_witness :
  exists p',
    run [(0, 1, true); (1, 0, false); (0, 0, true)] (new 2 2) = (Returns tt, p') /\
    associativity p' = 2 /\ set_count p' = 2 /\
    forall row, 0 <= row < 2 ->
      exists row_stats,
        vector_at (stats p') row = Some row_stats /\
        row_stats ≡ₚ seqZ 0 2.
Proof.
  apply (order_is_permutation 2 2 [(0, 1, true); (1, 0, false); (0, 0, true)]).
  - unfold uint32_modulus. lia.
  - lia.
  - repeat constructor; simpl; lia.
Defined.


(** *** Construction and eviction *)

Lemma new_row assoc sc row :
  0 <= row < sc -> vector_at (stats (new assoc sc)) row = Some (initial_row assoc).
Proof.
  intros Hrow. apply vector_at_Some. split; [lia |]. simpl.
  apply lookup_replicate_2. lia.
Qed.

(** C9: right after construction every row of a cache with at least one way
    is in ascending order and its victim is way 0. *)
Theorem fresh_victim_is_zero assoc sc row :
  0 < assoc <= uint32_modulus -> 0 <= row < sc ->
  vector_at (stats (new assoc sc)) row = Some (seqZ 0 assoc) /\
  select_way_to_evict row (new assoc sc) = Returns 0.
Proof.
  intros Ha Hrow. pose proof (new_row assoc sc row Hrow) as Hr.
  rewrite initial_row_ascending in Hr by lia. split; [done |].
  unfold select_way_to_evict. rewrite Hr.
  by rewrite seqZ_cons by lia.
Qed.

(** C9: witness with a four-way, eight-set cache. *)
Lemma fresh_victim_is_zero_witness :
  vector_at (stats (new 4 8)) 5 = Some (seqZ 0 4) /\
  select_way_to_evict 5 (new 4 8) = Returns 0.
Proof.
  apply (fresh_victim_is_zero 4 8 5); unfold uint32_modulus; lia.
Defined.

(** C4: a hit on way [w], found behind [l1] in its row, leaves
    [l1 ++ l2 ++ [w]]: the ways behind [w] move one place down in their
    order, [w] goes to the back, nothing else changes; the loop body runs
    at most [associativity] times; and the victim of the row is then not
    [w], unless the cache has a single way. *)
Theorem hit_moves_way_to_back p w r :
  ordered p -> 0 <= w < associativity p -> 0 <= r < set_count p ->
  exists l1 l2,
    vector_at (stats p) r = Some (l1 ++ w :: l2) /\
    pass_back (Z.to_nat (associativity p)) (l1 ++ w :: l2)
      (associativity p - 1) w w = (Returns tt, l1 ++ l2 ++ [w]) /\
    let p' := mk (associativity p) (vector_set (stats p) r (l1 ++ l2 ++ [w])) in
    update_stats w r true p = (Returns tt, p') /\
    vector_at (stats p') r = Some (l1 ++ l2 ++ [w]) /\
    (forall r', 0 <= r' -> r' <> r ->
       vector_at (stats p') r' = vector_at (stats p) r') /\
    (associativity p <> 1 ->
       exists v, select_way_to_evict r p' = Returns v /\ v <> w) /\
    (associativity p = 1 -> select_way_to_evict r p' = Returns w).
Proof.
  intros Hp Hw Hr.
  destruct (vector_at_in_range (stats p) r Hr) as [row_stats Hrow].
  destruct (ordered_split _ _ _ _ Hp Hrow Hw) as (l1 & l2 & -> & Hl1 & Hl2).
  destruct (ordered_row _ _ _ Hp Hrow) as (_ & _ & Hlen).
  rewrite length_app in Hlen. simpl in Hlen.
  assert (associativity p <= uint32_modulus) as Ha by apply Hp.
  unfold uint32_modulus in Ha.
  exists l1, l2. split; [done |]. split.
  { replace (associativity p - 1) with (Z.of_nat (length l1 + length l2)) by lia.
    replace (l1 ++ w :: l2) with (l1 ++ w :: l2 ++ []) by (by rewrite app_nil_r).
    apply pass_back_found; [done | |].
    - rewrite app_nil_r, length_app. simpl. unfold size_t_modulus. lia.
    - lia. }
  intros p'.
  assert (vector_at (stats p') r = Some (l1 ++ l2 ++ [w])) as Hrow'
    by (by apply vector_at_set_eq).
  split; [by apply update_stats_hit |]. split; [done |]. split.
  { intros r' Hr' Hne. apply vector_at_set_ne; lia. }
  unfold select_way_to_evict. rewrite Hrow'.
  destruct l1 as [| x l1]; [destruct l2 as [| y l2] |]; simpl in *.
  - split; [lia | done].
  - split; [| lia]. intros _. exists y. split; [done |].
    intros ->. apply Hl2. left.
  - split; [| lia]. intros _. exists x. split; [done |].
    intros ->. apply Hl1. left.
Qed.

(** C4: witness on the fresh four-way cache, hitting way 1 of row 0. *)
Lemma hit_moves_way_to_back_witness :
  exists l1 l2,
    vector_at (stats (new 4 2)) 0 = Some (l1 ++ 1 :: l2) /\
    pass_back (Z.to_nat 4) (l1 ++ 1 :: l2) (4 - 1) 1 1
      = (Returns tt, l1 ++ l2 ++ [1]) /\
    let p' := mk 4 (vector_set (stats (new 4 2)) 0 (l1 ++ l2 ++ [1])) in
    update_stats 1 0 true (new 4 2) = (Returns tt, p') /\
    vector_at (stats p') 0 = Some (l1 ++ l2 ++ [1]) /\
    (forall r', 0 <= r' -> r' <> 0 ->
       vector_at (stats p') r' = vector_at (stats (new 4 2)) r') /\
    (4 <> 1 -> exists v, select_way_to_evict 0 p' = Returns v /\ v <> 1) /\
    (4 = 1 -> select_way_to_evict 0 p' = Returns 1).
Proof.
  apply (hit_moves_way_to_back (new 4 2) 1 0).
  - apply new_ordered. unfold uint32_modulus. lia.
  - simpl. lia.
  - rewrite new_set_count; lia.
Defined.

(** The two-way scenario: [[0,1]], a hit on way 0 gives [[1,0]] and victim 1,
    a hit on way 1 gives [[0,1]] and victim 0. *)
Example lru_two_way_scenario :
  stats (new 2 1) = [[0; 1]] /\
  update_stats 0 0 true (new 2 1) = (Returns tt, mk 2 [[1; 0]]) /\
  select_way_to_evict 0 (mk 2 [[1; 0]]) = Returns 1 /\
  update_stats 1 0 true (mk 2 [[1; 0]]) = (Returns tt, mk 2 [[0; 1]]) /\
  select_way_to_evict 0 (mk 2 [[0; 1]]) = Returns 0.
Proof. repeat split. Qed.

(** *** Calls outside the bounds *)

(** A way the row does not hold: the pass has rewritten the row by the time
    it runs off it. *)
Example lru_lost_way_rewrites_row :
  update_stats 5 0 true (new 4 1) = (Throws lost_the_way, mk 4 [[1; 2; 3; 5]]) /\
  update_stats 5 0 false (new 4 1) = (Throws lost_the_way, mk 4 [[5; 0; 1; 2]]).
Proof. split; reflexivity. Qed.

(** On a state that satisfies the invariant, [update_stats] with a row or
    a way outside the bounds throws the sanity exception. *)
Lemma lru_update_stats_out_of_range p way row is_valid :
  ordered p -> is_size_t way -> is_size_t row ->
  set_count p <= row \/ associativity p <= way ->
  exists p', update_stats way row is_valid p = (Throws lost_the_way, p').
Proof.
  intros Hp Hway Hrow Hout. unfold update_stats.
  destruct (vector_at (stats p) row) as [row_stats |] eqn:Hr; [| by exists p].
  destruct (ordered_row _ _ _ Hp Hr) as (Hperm & _ & Hlen).
  assert (associativity p <= uint32_modulus) as Ha by apply Hp.
  unfold uint32_modulus in Ha.
  assert (associativity p <= way) as Hw.
  { destruct Hout as [Hout | Hout]; [| done].
    apply vector_at_Some in Hr as [? Hr%lookup_lt_Some].
    unfold set_count in Hout. lia. }
  assert (way ∉ row_stats) as Hnotin.
  { rewrite Hperm, elem_of_seqZ. lia. }
  assert (Z.of_nat (length (row_stats ++ [])) < size_t_modulus) as Hfit.
  { rewrite app_nil_r. unfold size_t_modulus. lia. }
  destruct is_valid.
  - rewrite to_ssize_t_id by lia. rewrite <- Hlen.
    destruct (pass_back_lost row_stats (S (length row_stats)) []
                (to_uint32 way) way Hnotin Hfit) as [row' Hpass]; [lia |].
    rewrite app_nil_r in Hpass. rewrite Hpass. simpl. eauto.
  - destruct (pass_front_lost row_stats (S (length row_stats)) []
                (to_uint32 way) way Hnotin) as [row' Hpass];
      [by rewrite app_nil_r in Hfit | lia |].
    change (Z.of_nat (@length Z [])) with 0 in Hpass. cbn [app] in Hpass.
    rewrite Hpass. simpl. eauto.
Qed.

(** [select_way_to_evict] with a row outside the bounds lets the
    [std::out_of_range] of [at] escape. *)
Lemma lru_select_way_to_evict_escapes p row :
  set_count p <= row -> select_way_to_evict row p = Throws std_out_of_range.
Proof.
  intros Hrow. unfold select_way_to_evict.
  replace (vector_at (stats p) row) with (@None (list Z)); [done |].
  symmetry. apply vector_at_None. unfold set_count in Hrow. lia.
Qed.

End LRUFacts.

(** *** [CachePolicyLFU] *)

Module LFUFacts.
Import LFU.

Lemma uint32_at row_stats j c :
  Forall is_uint32 row_stats -> vector_at row_stats j = Some c -> is_uint32 c.
Proof.
  intros Hall [_ Hj]%vector_at_Some. by apply (Forall_lookup_1 _ _ _ _ Hall Hj).
Qed.

(** The loop invariant of [scan]: [index] holds [lowest], which is the
    lowest counter before [k] and higher counters come before [index]; no
    way before [k] has counter 0. *)
Lemma scan_first_lowest row_stats (n : nat) : forall k lowest index,
  Forall is_uint32 row_stats ->
  0 <= k -> k + Z.of_nat n = Z.of_nat (length row_stats) ->
  vector_at row_stats index = Some lowest ->
  (forall j c', vector_at row_stats j = Some c' -> j < k -> lowest <= c' /\ c' <> 0) ->
  (forall j c', vector_at row_stats j = Some c' -> j < index -> lowest < c') ->
  exists idx,
    scan row_stats (seqZ k (Z.of_nat n)) lowest index = Returns idx /\
    first_lowest row_stats idx.
Proof.
  induction n as [| n IH]; intros k lowest index Hall Hk Hlen Hidx Hlow Hfirst.
  - exists index. split; [done |]. exists lowest. split; [done |]. split; [| done].
    intros j c' Hj. apply (Hlow j c' Hj).
    apply vector_at_Some in Hj as [_ Hj%lookup_lt_Some]. lia.
  - rewrite seqZ_cons by lia.
    replace (Z.pred (Z.of_nat (S n))) with (Z.of_nat n) by lia.
    cbn [scan].
    destruct (vector_at_in_range row_stats k) as [c Hc]; [lia |]. rewrite Hc.
    pose proof (uint32_at _ _ _ Hall Hc) as [Hc0 _].
    destruct (Z.eqb_spec c 0) as [-> | Hnz].
    { exists k. split; [done |]. exists 0. split; [done |]. split.
      - intros j c' Hj. by apply (uint32_at _ _ _ Hall Hj).
      - intros j c' Hj Hlt. destruct (Hlow j c' Hj Hlt) as [_ Hne].
        pose proof (uint32_at _ _ _ Hall Hj) as [? _]. lia. }
    rewrite Z.gtb_ltb. destruct (Z.ltb_spec c lowest) as [Hlt | Hge].
    + apply IH; [done | lia | lia | done | |].
      * intros j c' Hj Hjk. destruct (Z.eq_dec j k) as [-> | Hne].
        -- rewrite Hc in Hj. injection Hj as <-. lia.
        -- destruct (Hlow j c' Hj); lia.
      * intros j c' Hj Hjk. destruct (Hlow j c' Hj Hjk). lia.
    + apply IH; [done | lia | lia | done | | done].
      intros j c' Hj Hjk. destruct (Z.eq_dec j k) as [-> | Hne].
      * rewrite Hc in Hj. injection Hj as <-. lia.
      * destruct (Hlow j c' Hj); lia.
Qed.

Lemma select_first_lowest p r row_stats :
  vector_at (stats p) r = Some row_stats ->
  row_stats <> [] -> Forall is_uint32 row_stats ->
  exists idx,
    select_way_to_evict r p = Returns idx /\ first_lowest row_stats idx.
Proof.
  intros Hr Hne Hall. unfold select_way_to_evict. rewrite Hr.
  destruct row_stats as [| c0 rest] eqn:Hrow; [done |].
  change (vector_at (c0 :: rest) 0) with (Some c0). rewrite <- Hrow in *.
  destruct (scan_first_lowest row_stats (length row_stats) 0 c0 0)
    as (idx & Hscan & Hfirst); try done.
  - by rewrite Hrow.
  - intros j c' Hj Hlt. apply vector_at_Some in Hj. lia.
  - intros j c' Hj Hlt. apply vector_at_Some in Hj. lia.
  - exists idx. by rewrite Hscan.
Qed.

(** Once a way [w] of the row has counter 0, the victim is the first way
    with counter 0. *)
Lemma select_first_zero p r row_stats w :
  vector_at (stats p) r = Some row_stats ->
  Forall is_uint32 row_stats -> vector_at row_stats w = Some 0 ->
  exists idx,
    select_way_to_evict r p = Returns idx /\
    vector_at row_stats idx = Some 0 /\ idx <= w /\
    (forall j c, vector_at row_stats j = Some c -> j < idx -> c <> 0).
Proof.
  intros Hr Hall Hw.
  destruct (select_first_lowest p r row_stats Hr) as (idx & Hsel & c & Hc & Hmin & Hfst);
    [| done |].
  { intros ->. apply vector_at_Some in Hw as [_ Hw]. by rewrite lookup_nil in Hw. }
  pose proof (uint32_at _ _ _ Hall Hc) as [Hc0 _].
  pose proof (Hmin w 0 Hw) as Hle. assert (c = 0) as -> by lia.
  exists idx. split; [done |]. split; [done |]. split.
  - destruct (Z_le_gt_dec idx w) as [| Hgt]; [done |].
    pose proof (Hfst w 0 Hw). lia.
  - intros j c' Hj Hlt. pose proof (Hfst j c' Hj Hlt). lia.
Qed.


Lemma counters_ok_row assoc p r row_stats :
  counters_ok assoc p -> vector_at (stats p) r = Some row_stats ->
  Z.of_nat (length row_stats) = assoc /\ Forall is_uint32 row_stats.
Proof.
  intros Hp [_ Hr]%vector_at_Some. apply (Forall_lookup_1 _ _ _ _ Hp Hr).
Qed.

Lemma new_counters_ok assoc sc : 0 <= assoc -> counters_ok assoc (new assoc sc).
Proof.
  intros Ha. apply Forall_replicate. split.
  - rewrite length_replicate. lia.
  - apply Forall_replicate. unfold is_uint32, uint32_modulus. lia.
Qed.

(** An in-range call returns, having written the new counter. *)
Lemma lfu_update_stats_in_range assoc p w r (is_valid : bool) :
  counters_ok assoc p -> 0 <= w < assoc -> 0 <= r < set_count p ->
  exists row_stats c,
    vector_at (stats p) r = Some row_stats /\
    vector_at row_stats w = Some c /\
    Forall is_uint32 row_stats /\
    let c' := if is_valid then (c + 1) mod 2 ^ 32 else 0 in
    let row_stats' := vector_set row_stats w c' in
    let p' := mk (vector_set (stats p) r row_stats') in
    update_stats w r is_valid p = (Returns tt, p') /\
    vector_at (stats p') r = Some row_stats' /\
    vector_at row_stats' w = Some c' /\
    Forall is_uint32 row_stats' /\
    (forall j, j <> w -> vector_at row_stats' j = vector_at row_stats j) /\
    counters_ok assoc p'.
Proof.
  intros Hp Hw Hr.
  destruct (vector_at_in_range (stats p) r Hr) as [row_stats Hrow].
  destruct (counters_ok_row _ _ _ _ Hp Hrow) as [Hlen Hall].
  destruct (vector_at_in_range row_stats w) as [c Hc]; [lia |].
  exists row_stats, c. split; [done |]. split; [done |]. split; [done |].
  intros c' row_stats' p'.
  assert (is_uint32 c') as Hc'.
  { subst c'. destruct is_valid.
    - unfold is_uint32, uint32_modulus. apply Z.mod_pos_bound. lia.
    - unfold is_uint32, uint32_modulus. lia. }
  assert (Forall is_uint32 row_stats') as Hall'
    by (by apply Forall_insert).
  split. { unfold update_stats. rewrite Hrow, Hc. by destruct is_valid. }
  split. { by apply vector_at_set_eq. }
  split. { apply vector_at_set_eq. lia. }
  split; [done |]. split.
  - intros j Hne. unfold vector_at, row_stats', vector_set.
    rewrite length_insert.
    destruct ((0 <=? j) && (j <? Z.of_nat (length row_stats))) eqn:Hj; [| done].
    apply list_lookup_insert_ne. apply andb_prop in Hj as [Hj _]. lia.
  - apply Forall_insert; [done |]. split; [| done].
    subst row_stats'. by rewrite vector_set_length.
Qed.

(** C3: the victim is the first way holding the lowest counter of the row;
    when some way has counter 0 the victim has counter 0, whatever the
    other counters are, and no way before it has. *)
Theorem select_lowest_counter assoc p r :
  counters_ok assoc p -> 0 < assoc -> 0 <= r < set_count p ->
  exists row_stats idx c,
    vector_at (stats p) r = Some row_stats /\
    select_way_to_evict r p = Returns idx /\
    vector_at row_stats idx = Some c /\
    (forall j c', vector_at row_stats j = Some c' -> c <= c') /\
    (forall j c', vector_at row_stats j = Some c' -> j < idx -> c < c') /\
    (forall j, vector_at row_stats j = Some 0 -> c = 0 /\ idx <= j).
Proof.
  intros Hp Ha Hr.
  destruct (vector_at_in_range (stats p) r Hr) as [row_stats Hrow].
  destruct (counters_ok_row _ _ _ _ Hp Hrow) as [Hlen Hall].
  destruct (select_first_lowest p r row_stats Hrow)
    as (idx & Hsel & c & Hc & Hmin & Hfst); [| done |].
  { intros ->. simpl in Hlen. lia. }
  exists row_stats, idx, c. repeat (split; [done |]).
  intros j Hj. pose proof (uint32_at _ _ _ Hall Hc) as [Hc0 _].
  pose proof (Hmin j 0 Hj). split; [lia |].
  destruct (Z_le_gt_dec idx j) as [| Hgt]; [done |].
  pose proof (Hfst j 0 Hj). lia.
Qed.

(** C3: witness with a large counter next to an unused way. *)
Lemma select_lowest_counter_witness :
  exists row_stats idx c,
    vector_at (stats (mk [[7; 4294967295; 0; 3; 0]])) 0 = Some row_stats /\
    select_way_to_evict 0 (mk [[7; 4294967295; 0; 3; 0]]) = Returns idx /\
    vector_at row_stats idx = Some c /\
    (forall j c', vector_at row_stats j = Some c' -> c <= c') /\
    (forall j c', vector_at row_stats j = Some c' -> j < idx -> c < c') /\
    (forall j, vector_at row_stats j = Some 0 -> c = 0 /\ idx <= j).
Proof.
  apply (select_lowest_counter 5 (mk [[7; 4294967295; 0; 3; 0]]) 0).
  - repeat constructor; unfold uint32_modulus; lia.
  - lia.
  - unfold set_count. simpl. lia.
Defined.

(** C5: invalidating way [w] writes 0 into its counter and leaves the other
    counters alone; the victim of the row is then the first way with
    counter 0, which is [w] unless a way before [w] has counter 0 too. *)
Theorem invalidate_resets_counter assoc p w r :
  counters_ok assoc p -> 0 <= w < assoc -> 0 <= r < set_count p ->
  exists row_stats,
    vector_at (stats p) r = Some row_stats /\
    let row_stats' := vector_set row_stats w 0 in
    let p' := mk (vector_set (stats p) r row_stats') in
    update_stats w r false p = (Returns tt, p') /\
    vector_at (stats p') r = Some row_stats' /\
    vector_at row_stats' w = Some 0 /\
    (forall j, j <> w -> vector_at row_stats' j = vector_at row_stats j) /\
    exists idx,
      select_way_to_evict r p' = Returns idx /\
      ((forall j, 0 <= j < w -> vector_at row_stats j <> Some 0) -> idx = w) /\
      (idx <> w -> idx < w /\ vector_at row_stats idx = Some 0).
Proof.
  intros Hp Hw Hr.
  destruct (lfu_update_stats_in_range assoc p w r false Hp Hw Hr)
    as (row_stats & c & Hrow & Hc & Hall & Hupd & Hrow' & Hw' & Hall' & Hothers & _).
  exists row_stats. split; [done |]. intros row_stats' p'.
  repeat (split; [done |]).
  destruct (select_first_zero p' r row_stats' w Hrow' Hall' Hw')
    as (idx & Hsel & Hidx & Hle & Hbefore).
  exists idx. split; [done |].
  assert (idx <> w -> idx < w /\ vector_at row_stats idx = Some 0) as Hlower.
  { intros Hne. split; [lia |]. rewrite <- Hidx. symmetry. by apply Hothers. }
  split; [| done].
  intros Hnone. destruct (Z.eq_dec idx w) as [| Hne]; [done |].
  destruct (Hlower Hne) as [Hlt Hzero].
  apply vector_at_Some in Hidx as Hpos. destruct (Hnone idx); [lia | done].
Qed.

(** C5: witness on a row whose only other unused way comes after [w]. *)
Lemma invalidate_resets_counter_witness :
  exists row_stats,
    vector_at (stats (mk [[5; 9; 2; 0]])) 0 = Some row_stats /\
    let row_stats' := vector_set row_stats 1 0 in
    let p' := mk (vector_set (stats (mk [[5; 9; 2; 0]])) 0 row_stats') in
    update_stats 1 0 false (mk [[5; 9; 2; 0]]) = (Returns tt, p') /\
    vector_at (stats p') 0 = Some row_stats' /\
    vector_at row_stats' 1 = Some 0 /\
    (forall j, j <> 1 -> vector_at row_stats' j = vector_at row_stats j) /\
    exists idx,
      select_way_to_evict 0 p' = Returns idx /\
      ((forall j, 0 <= j < 1 -> vector_at row_stats j <> Some 0) -> idx = 1) /\
      (idx <> 1 -> idx < 1 /\ vector_at row_stats idx = Some 0).
Proof.
  apply (invalidate_resets_counter 4 (mk [[5; 9; 2; 0]]) 1 0).
  - repeat constructor; unfold uint32_modulus; lia.
  - lia.
  - unfold set_count. simpl. lia.
Defined.

(** C10: a hit stores [(c + 1) mod 2^32]; from [2^32 - 1] that is 0, and the
    victim of the row is then the first way with counter 0: [w], unless a
    way before [w] has counter 0 too. *)
Theorem hit_counter_wraps assoc p w r :
  counters_ok assoc p -> 0 <= w < assoc -> 0 <= r < set_count p ->
  exists row_stats c,
    vector_at (stats p) r = Some row_stats /\
    vector_at row_stats w = Some c /\
    let c' := (c + 1) mod 2 ^ 32 in
    let row_stats' := vector_set row_stats w c' in
    let p' := mk (vector_set (stats p) r row_stats') in
    update_stats w r true p = (Returns tt, p') /\
    vector_at (stats p') r = Some row_stats' /\
    vector_at row_stats' w = Some c' /\
    (c < 2 ^ 32 - 1 -> c' = c + 1) /\
    (c = 2 ^ 32 - 1 ->
       c' = 0 /\
       exists idx,
         select_way_to_evict r p' = Returns idx /\
         vector_at row_stats' idx = Some 0 /\
         (forall j c'', vector_at row_stats' j = Some c'' -> c'' <> 0 -> idx <> j) /\
         ((forall j, 0 <= j < w -> vector_at row_stats j <> Some 0) -> idx = w)).
Proof.
  intros Hp Hw Hr.
  destruct (lfu_update_stats_in_range assoc p w r true Hp Hw Hr)
    as (row_stats & c & Hrow & Hc & Hall & Hupd & Hrow' & Hw' & Hall' & Hothers & _).
  exists row_stats, c. split; [done |]. split; [done |]. intros c' row_stats' p'.
  repeat (split; [done |]).
  pose proof (uint32_at _ _ _ Hall Hc) as [Hc0 Hc1]. unfold uint32_modulus in Hc1.
  split.
  { intros Hlt. subst c'. apply Z.mod_small. lia. }
  intros ->. assert (c' = 0) as Hzero by done. split; [done |].
  assert (vector_at row_stats' w = Some 0) as Hw0 by (by rewrite <- Hzero).
  destruct (select_first_zero p' r row_stats' w Hrow' Hall' Hw0)
    as (idx & Hsel & Hidx & Hle & Hbefore).
  exists idx. split; [done |]. split; [done |]. split.
  - intros j c'' Hj Hnz ->. rewrite Hidx in Hj. by injection Hj as <-.
  - intros Hnone. destruct (Z.eq_dec idx w) as [| Hne]; [done |].
    apply vector_at_Some in Hidx as Hpos.
    destruct (Hnone idx); [lia |].
    rewrite <- Hidx. symmetry. by apply Hothers.
Qed.

(** C10: witness with a counter at [2^32 - 1]. *)
Lemma hit_counter_wraps_witness :
  exists row_stats c,
    vector_at (stats (mk [[3; 4294967295; 8]])) 0 = Some row_stats /\
    vector_at row_stats 1 = Some c /\
    let c' := (c + 1) mod 2 ^ 32 in
    let row_stats' := vector_set row_stats 1 c' in
    let p' := mk (vector_set (stats (mk [[3; 4294967295; 8]])) 0 row_stats') in
    update_stats 1 0 true (mk [[3; 4294967295; 8]]) = (Returns tt, p') /\
    vector_at (stats p') 0 = Some row_stats' /\
    vector_at row_stats' 1 = Some c' /\
    (c < 2 ^ 32 - 1 -> c' = c + 1) /\
    (c = 2 ^ 32 - 1 ->
       c' = 0 /\
       exists idx,
         select_way_to_evict 0 p' = Returns idx /\
         vector_at row_stats' idx = Some 0 /\
         (forall j c'', vector_at row_stats' j = Some c'' -> c'' <> 0 -> idx <> j) /\
         ((forall j, 0 <= j < 1 -> vector_at row_stats j <> Some 0) -> idx = 1)).
Proof.
  apply (hit_counter_wraps 3 (mk [[3; 4294967295; 8]]) 1 0).
  - repeat constructor; unfold uint32_modulus; lia.
  - lia.
  - unfold set_count. simpl. lia.
Defined.

(** The two-way scenario: counters [[0,0]] and victim 0; a hit on way 0 gives
    [[1,0]] and victim 1; a hit on way 1 gives [[1,1]] and victim 0. *)
Example lfu_two_way_scenario :
  stats (new 2 1) = [[0; 0]] /\
  select_way_to_evict 0 (new 2 1) = Returns 0 /\
  update_stats 0 0 true (new 2 1) = (Returns tt, mk [[1; 0]]) /\
  select_way_to_evict 0 (mk [[1; 0]]) = Returns 1 /\
  update_stats 1 0 true (mk [[1; 0]]) = (Returns tt, mk [[1; 1]]) /\
  select_way_to_evict 0 (mk [[1; 1]]) = Returns 0.
Proof. repeat split. Qed.

(** *** Calls outside the bounds *)

Lemma lfu_select_way_to_evict_out_of_range p row :
  set_count p <= row -> select_way_to_evict row p = Throws lost_the_way.
Proof.
  intros Hrow. unfold select_way_to_evict.
  replace (vector_at (stats p) row) with (@None (list Z)); [done |].
  symmetry. apply vector_at_None. unfold set_count in Hrow. lia.
Qed.

(** [update_stats] has no handler: the [std::out_of_range] of [at]
    escapes. *)
Lemma lfu_update_stats_escapes assoc p way row is_valid :
  counters_ok assoc p -> set_count p <= row \/ assoc <= way ->
  update_stats way row is_valid p = (Throws std_out_of_range, p).
Proof.
  intros Hp Hout. unfold update_stats.
  destruct (vector_at (stats p) row) as [row_stats |] eqn:Hr; [| done].
  destruct (counters_ok_row _ _ _ _ Hp Hr) as [Hlen _].
  replace (vector_at row_stats way) with (@None Z); [done |].
  symmetry. apply vector_at_None. destruct Hout as [Hout | Hout]; [| lia].
  apply vector_at_Some in Hr as [? Hr%lookup_lt_Some].
  unfold set_count in Hout. lia.
Qed.

End LFUFacts.

(** *** [CachePolicyRAND] *)

Module RANDFacts.
Import RAND.

Section Generator.
Context `{StdRand}.

Lemma update_stats_nop way row is_valid p g :
  update_stats way row is_valid p g = (Returns tt, p, g).
Proof. reflexivity. Qed.

Lemma select_way_to_evict_range row p g :
  0 < associativity p ->
  exists v,
    (select_way_to_evict row p g).1 = Returns v /\ 0 <= v < associativity p.
Proof.
  intros Ha. unfold select_way_to_evict. destruct (rand g) as [r g'].
  destruct (Z.eqb_spec (associativity p) 0) as [| _]; [lia |].
  eexists. split; [done |]. by apply Z.mod_pos_bound.
Qed.

Lemma evictions_range calls : forall p g,
  0 < associativity p ->
  Forall (fun o => exists v, o = Returns v /\ 0 <= v < associativity p)
    (evictions calls p g).
Proof.
  induction calls as [| [way row is_valid | row] calls IH]; intros p g Ha.
  - constructor.
  - simpl. by apply IH.
  - simpl. destruct (select_way_to_evict_range row p g Ha) as (v & Hv & Hrange).
    destruct (select_way_to_evict row p g) as [o g']. simpl in Hv. subst o.
    constructor; [eauto | by apply IH].
Qed.

(** C6: [update_stats] changes nothing; every eviction of a fresh
    instance with at least one way is a way of the cache; and two fresh
    instances of one associativity, whatever the generator did before
    each was built, answer the same calls with the same evictions. *)
Theorem replay_is_deterministic assoc calls g1 g2 :
  0 < assoc ->
  (forall way row is_valid p g,
     update_stats way row is_valid p g = (Returns tt, p, g)) /\
  Forall (fun o => exists v, o = Returns v /\ 0 <= v < assoc)
    (fresh_run assoc calls g1) /\
  fresh_run assoc calls g1 = fresh_run assoc calls g2.
Proof.
  intros Ha. split; [done |]. split; [| done].
  unfold fresh_run. simpl. by apply (evictions_range calls (mk assoc)).
Qed.

End Generator.

(** C6: witness with the sample generator, two processes in different
    generator states. *)
Lemma replay_is_deterministic_witness :
  (forall way row is_valid p g,
     update_stats way row is_valid p g = (Returns tt, p, g)) /\
  Forall (fun o => exists v, o = Returns v /\ 0 <= v < 4)
    (fresh_run 4 [SelectWayToEvict 0; SelectWayToEvict 3; SelectWayToEvict 0] 0) /\
  fresh_run 4 [SelectWayToEvict 0; SelectWayToEvict 3; SelectWayToEvict 0] 0
  = fresh_run 4 [SelectWayToEvict 0; SelectWayToEvict 3; SelectWayToEvict 0] 12345.
Proof.
  apply (@replay_is_deterministic sample_rand 4
           [SelectWayToEvict 0; SelectWayToEvict 3; SelectWayToEvict 0] 0 12345).
  lia.
Defined.

End RANDFacts.

(** *** The factory and the calls through [CachePolicy] *)

Module FactoryFacts.
Import Factory.

Section Generator.
Context `{StdRand}.

(** C7: the factory returns no instance for a disabled cache and
    otherwise one instance, of the class that [replacement_policy]
    names. *)
Theorem factory_selects_variant config g :
  variant <$> (get_policy_instance config g).1
  = if enabled config then Some (replacement_policy config) else None.
Proof.
  unfold get_policy_instance.
  destruct (enabled config); [| done].
  by destruct (replacement_policy config).
Qed.

(** The instance the factory builds has the configured dimensions. *)
Lemma factory_instance config g p :
  (get_policy_instance config g).1 = Some p ->
  enabled config = true /\
  match p with
  | PolicyRAND q => RAND.associativity q = associativity config
  | PolicyLRU q => q = LRU.new (associativity config) (set_count config)
  | PolicyLFU q => q = LFU.new (associativity config) (set_count config)
  end.
Proof.
  unfold get_policy_instance.
  destruct (enabled config); [| done].
  destruct (replacement_policy config); simpl; intros [= <-]; done.
Qed.

(** C1, as the code has it: outside the bounds, [update_stats] of the
    LRU policy (on a state that satisfies its invariant) and
    [select_way_to_evict] of the LFU policy throw the sanity exception;
    the random policy has no state to index: its [update_stats] returns
    having changed nothing and its [select_way_to_evict] returns a way of
    the cache, whatever [way] and [row] are. *)
Theorem out_of_range_calls assoc sc lru lfu rnd way row is_valid g :
  LRU.ordered lru -> LRU.associativity lru = assoc -> LRU.set_count lru = sc ->
  LFU.set_count lfu = sc -> RAND.associativity rnd = assoc ->
  is_size_t way -> is_size_t row ->
  sc <= row \/ assoc <= way ->
  throws_kind Fault.Sanity
    (update_stats way row is_valid (PolicyLRU lru) g).1.1 /\
  (sc <= row ->
   throws_kind Fault.Sanity (select_way_to_evict row (PolicyLFU lfu) g).1) /\
  update_stats way row is_valid (PolicyRAND rnd) g
  = (Returns tt, PolicyRAND rnd, g) /\
  (0 < assoc ->
   exists v, (select_way_to_evict row (PolicyRAND rnd) g).1 = Returns v /\
             0 <= v < assoc).
Proof.
  intros Hlru <- <- Hlfu Hrnd Hway Hrow Hout. split; [| split; [| split]].
  - destruct (LRUFacts.lru_update_stats_out_of_range lru way row is_valid)
      as [lru' Hthrow]; [done .. |].
    simpl. rewrite Hthrow. simpl. by eexists.
  - intros Hr. simpl.
    rewrite LFUFacts.lfu_select_way_to_evict_out_of_range by lia. by eexists.
  - done.
  - intros Ha. simpl. rewrite <- Hrnd in *.
    by apply RANDFacts.select_way_to_evict_range.
Qed.

End Generator.

(** C1: witness with two ways and four sets, [way = 7] and [row = 9]. *)
Lemma out_of_range_calls_witness :
  throws_kind Fault.Sanity
    (update_stats (H := sample_rand) 7 9 true (PolicyLRU (LRU.new 2 4)) 1).1.1 /\
  (4 <= 9 ->
   throws_kind Fault.Sanity
     (select_way_to_evict (H := sample_rand) 9 (PolicyLFU (LFU.new 2 4)) 1).1) /\
  update_stats (H := sample_rand) 7 9 true (PolicyRAND (RAND.mk 2)) 1
  = (Returns tt, PolicyRAND (RAND.mk 2), 1) /\
  (0 < 2 ->
   exists v,
     (select_way_to_evict (H := sample_rand) 9 (PolicyRAND (RAND.mk 2)) 1).1
     = Returns v /\ 0 <= v < 2).
Proof.
  apply (@out_of_range_calls sample_rand 2 4 (LRU.new 2 4) (LFU.new 2 4)
           (RAND.mk 2) 7 9 true 1).
  - apply LRUFacts.new_ordered. unfold uint32_modulus. lia.
  - reflexivity.
  - reflexivity.
  - reflexivity.
  - reflexivity.
  - unfold is_size_t, size_t_modulus. lia.
  - unfold is_size_t, size_t_modulus. lia.
  - lia.
Defined.

(** C1 refuted as stated: a random policy built by the factory for a cache
    with two ways and four sets takes [way = 7] and [row = 9] and throws
    nothing. *)
Lemma random_ignores_bounds :
  let config := {| enabled := true; associativity := 2; set_count := 4;
                   replacement_policy := RP_RAND |} in
  exists p g,
    get_policy_instance (H := sample_rand) config 0 = (Some p, g) /\
    ~ throws_kind Fault.Sanity (update_stats 7 9 true p g).1.1 /\
    ~ throws_kind Fault.Sanity (select_way_to_evict 9 p g).1.
Proof.
  eexists _, _. split; [reflexivity |].
  split; intros (e & He & _); discriminate.
Qed.

End FactoryFacts.

(** *** More on [CachePolicyLRU]: both directions, recency, failed calls *)

Module LRUMore.
Import LRU LRUFacts.

Section Filter.
Context {A : Type} (P : A -> Prop) `{!forall x, Decision (P x)}.

Lemma filter_keeps_all (l : list A) :
  (forall x, x ∈ l -> P x) -> filter P l = l.
Proof.
  induction l as [| a l IH]; intros Hall; [done |].
  rewrite filter_cons_True by (apply Hall; left).
  f_equal. apply IH. intros x Hx. apply Hall. by right.
Qed.

Lemma filter_drops_all (l : list A) :
  (forall x, x ∈ l -> ~ P x) -> filter P l = [].
Proof.
  induction l as [| a l IH]; intros Hall; [done |].
  rewrite filter_cons_False by (apply Hall; left).
  apply IH. intros x Hx. apply Hall. by right.
Qed.

End Filter.

Lemma filter_ne_middle (w : Z) l1 l2 :
  w ∉ l1 -> w ∉ l2 -> filter (fun x => x <> w) (l1 ++ w :: l2) = l1 ++ l2.
Proof.
  intros H1 H2. rewrite filter_app, filter_cons_False by tauto.
  rewrite !filter_keeps_all; [done | |]; intros x Hx ->; tauto.
Qed.

Lemma vector_set_twice {A : Type} (v : list A) i x y :
  vector_set (vector_set v i x) i y = vector_set v i y.
Proof. unfold vector_set. apply list_insert_insert_eq. Qed.

(** [update_stats] as a list function: on a row that satisfies the
    invariant the loops compute [to_back] and [to_front]. *)
Lemma update_stats_moves p w r row_stats (is_valid : bool) :
  ordered p -> 0 <= w < associativity p ->
  vector_at (stats p) r = Some row_stats ->
  update_stats w r is_valid p
  = (Returns tt,
     mk (associativity p)
        (vector_set (stats p) r
           (if is_valid then to_back w row_stats else to_front w row_stats))).
Proof.
  intros Hp Hw Hr.
  destruct (ordered_split _ _ _ _ Hp Hr Hw) as (l1 & l2 & -> & Hl1 & Hl2).
  unfold to_back, to_front. rewrite filter_ne_middle by done.
  destruct is_valid.
  - rewrite (update_stats_hit p w r l1 l2) by done. by rewrite <- app_assoc.
  - by rewrite (update_stats_invalidate p w r l1 l2).
Qed.

(** X1: invalidating way [w], found behind [l1] in its row, leaves
    [w :: l1 ++ l2], and [w] is then the victim of the row. *)
Theorem invalidate_moves_way_to_front p w r :
  ordered p -> 0 <= w < associativity p -> 0 <= r < set_count p ->
  exists l1 l2,
    vector_at (stats p) r = Some (l1 ++ w :: l2) /\
    let p' := mk (associativity p) (vector_set (stats p) r (w :: l1 ++ l2)) in
    update_stats w r false p = (Returns tt, p') /\
    vector_at (stats p') r = Some (w :: l1 ++ l2) /\
    select_way_to_evict r p' = Returns w.
Proof.
  intros Hp Hw Hr.
  destruct (vector_at_in_range (stats p) r Hr) as [row_stats Hrow].
  destruct (ordered_split _ _ _ _ Hp Hrow Hw) as (l1 & l2 & -> & _ & _).
  exists l1, l2. split; [done |]. intros p'.
  assert (vector_at (stats p') r = Some (w :: l1 ++ l2)) as Hrow'
    by (by apply vector_at_set_eq).
  split; [by apply update_stats_invalidate |]. split; [done |].
  unfold select_way_to_evict. by rewrite Hrow'.
Qed.

Lemma invalidate_moves_way_to_front_witness :
  exists l1 l2,
    vector_at (stats (new 4 2)) 1 = Some (l1 ++ 2 :: l2) /\
    let p' := mk 4 (vector_set (stats (new 4 2)) 1 (2 :: l1 ++ l2)) in
    update_stats 2 1 false (new 4 2) = (Returns tt, p') /\
    vector_at (stats p') 1 = Some (2 :: l1 ++ l2) /\
    select_way_to_evict 1 p' = Returns 2.
Proof.
  apply (invalidate_moves_way_to_front (new 4 2) 2 1).
  - apply new_ordered. unfold uint32_modulus. lia.
  - simpl. lia.
  - rewrite new_set_count; lia.
Defined.

(** X2: of two calls in a row on the same way and row the second decides:
    the state is the one the second call alone would have left. *)
Theorem last_update_wins p w r (first second : bool) :
  ordered p -> 0 <= w < associativity p -> 0 <= r < set_count p ->
  exists p1,
    update_stats w r first p = (Returns tt, p1) /\
    update_stats w r second p1 = update_stats w r second p.
Proof.
  intros Hp Hw Hr.
  destruct (vector_at_in_range (stats p) r Hr) as [row_stats Hrow].
  destruct (lru_update_stats_in_range p w r first Hp Hw Hr)
    as (p1 & Hstep & Hp1 & Ha1 & _).
  exists p1. split; [done |].
  rewrite (update_stats_moves p w r row_stats first) in Hstep by done.
  injection Hstep as <-.
  set (row1 := if first then to_back w row_stats else to_front w row_stats) in *.
  assert (vector_at (vector_set (stats p) r row1) r = Some row1) as Hrow1
    by (by apply vector_at_set_eq).
  rewrite (update_stats_moves _ w r row1 second) by done.
  rewrite (update_stats_moves p w r row_stats second) by done.
  simpl. rewrite vector_set_twice. do 3 f_equal.
  assert (filter (fun x => x <> w) row1 = filter (fun x => x <> w) row_stats)
    as Hsame.
  { subst row1. destruct first; unfold to_back, to_front.
    - rewrite filter_app, filter_cons_False by tauto.
      rewrite app_nil_r. apply list_filter_filter_l. tauto.
    - rewrite filter_cons_False by tauto. apply list_filter_filter_l. tauto. }
  destruct second; unfold to_back, to_front; by rewrite Hsame.
Qed.

Lemma last_update_wins_witness :
  exists p1,
    update_stats 1 0 true (new 4 2) = (Returns tt, p1) /\
    update_stats 1 0 false p1 = update_stats 1 0 false (new 4 2).
Proof.
  apply (last_update_wins (new 4 2) 1 0 true false).
  - apply new_ordered. unfold uint32_modulus. lia.
  - simpl. lia.
  - rewrite new_set_count; lia.
Defined.


(** *** Recency *)

Lemma run_hits r ws : forall p row_stats,
  ordered p -> vector_at (stats p) r = Some row_stats ->
  Forall (fun w => 0 <= w < associativity p) ws ->
  run (hits r ws) p
  = (Returns tt,
     mk (associativity p)
        (vector_set (stats p) r
           (foldl (fun row w => to_back w row) row_stats ws))).
Proof.
  induction ws as [| w ws IH]; intros p row_stats Hp Hrow Hws.
  - simpl. apply vector_at_Some in Hrow as [_ Hrow].
    unfold vector_set. rewrite list_insert_id by done. by destruct p.
  - apply Forall_cons in Hws as [Hw Hws].
    assert (0 <= r < set_count p) as Hr.
    { apply vector_at_Some in Hrow as [? Hlt%lookup_lt_Some].
      unfold set_count. lia. }
    destruct (lru_update_stats_in_range p w r true Hp Hw Hr)
      as (p1 & Hstep & Hp1 & Ha1 & _).
    cbn [hits fmap list_fmap run]. rewrite Hstep.
    rewrite (update_stats_moves p w r row_stats true) in Hstep by done.
    injection Hstep as <-.
    change (list_fmap _ _ (fun w0 => (w0, r, true)) ws) with (hits r ws).
    rewrite (IH _ (to_back w row_stats)); [| done | | done].
    + simpl. by rewrite vector_set_twice.
    + simpl. apply vector_at_set_eq. done.
Qed.

Lemma foldl_to_back sigma : forall row_stats,
  NoDup sigma ->
  foldl (fun row w => to_back w row) row_stats sigma
  = filter (fun x => x ∉ sigma) row_stats ++ sigma.
Proof.
  induction sigma as [| w sigma IH]; intros row_stats Hnd.
  - simpl. rewrite app_nil_r. symmetry. apply filter_keeps_all.
    intros x _. apply not_elem_of_nil.
  - apply NoDup_cons in Hnd as [Hw Hnd]. simpl. rewrite IH by done.
    unfold to_back. rewrite filter_app, list_filter_filter.
    rewrite (filter_keeps_all _ [w])
      by (by intros x ->%list_elem_of_singleton).
    rewrite <- app_assoc. simpl. f_equal.
    apply list_filter_iff. intros x. rewrite not_elem_of_cons. tauto.
Qed.

(** X3: once every way of a row has been hit, the row lists the ways in the
    order of their hits, whatever it was before: hits on the ways in the
    order [sigma] leave the row equal to [sigma], the other rows as they
    were, and the first way of [sigma] as the victim. *)
Theorem hits_leave_their_order p r sigma :
  ordered p -> 0 <= r < set_count p -> sigma ≡ₚ seqZ 0 (associativity p) ->
  exists p',
    run (hits r sigma) p = (Returns tt, p') /\
    vector_at (stats p') r = Some sigma /\
    (forall r', r' <> r -> vector_at (stats p') r' = vector_at (stats p) r') /\
    (forall w rest, sigma = w :: rest -> select_way_to_evict r p' = Returns w).
Proof.
  intros Hp Hr Hsigma.
  destruct (vector_at_in_range (stats p) r Hr) as [row_stats Hrow].
  destruct (ordered_row _ _ _ Hp Hrow) as (Hperm & _ & _).
  assert (NoDup sigma) as Hnd by (rewrite Hsigma; apply NoDup_seqZ).
  assert (Forall (fun w => 0 <= w < associativity p) sigma) as Hways.
  { apply Forall_forall. intros w Hw.
    rewrite Hsigma in Hw. apply elem_of_seqZ in Hw. lia. }
  eexists. split; [by apply (run_hits r sigma p row_stats) |].
  rewrite foldl_to_back by done.
  rewrite filter_drops_all, app_nil_l.
  2: { intros x Hx Hnot. apply Hnot. by rewrite Hsigma, <- Hperm. }
  assert (vector_at (vector_set (stats p) r sigma) r = Some sigma) as Hrow'
    by (by apply vector_at_set_eq).
  split; [done |]. split.
  - intros r' Hne. simpl. unfold vector_at, vector_set.
    rewrite length_insert.
    destruct ((0 <=? r') && (r' <? Z.of_nat (length (stats p)))) eqn:Hr'; [| done].
    apply list_lookup_insert_ne. apply andb_prop in Hr' as [Hr' _]. lia.
  - intros w rest ->. unfold select_way_to_evict. simpl. by rewrite Hrow'.
Qed.

Lemma hits_leave_their_order_witness :
  exists p',
    run (hits 0 [2; 0; 3; 1]) (new 4 2) = (Returns tt, p') /\
    vector_at (stats p') 0 = Some [2; 0; 3; 1] /\
    (forall r', r' <> 0 -> vector_at (stats p') r' = vector_at (stats (new 4 2)) r') /\
    (forall w rest, [2; 0; 3; 1] = w :: rest -> select_way_to_evict 0 p' = Returns w).
Proof.
  apply (hits_leave_their_order (new 4 2) 0 [2; 0; 3; 1]).
  - apply new_ordered. unfold uint32_modulus. lia.
  - rewrite new_set_count; lia.
  - apply NoDup_Permutation.
    + repeat (apply NoDup_cons; split;
              [rewrite ?elem_of_cons, ?elem_of_nil; lia |]).
      apply NoDup_nil_2.
    + apply NoDup_seqZ.
    + intros x. rewrite elem_of_seqZ, !elem_of_cons, elem_of_nil. simpl. lia.
Defined.

(** In range, the victim is a way of the cache. *)
Lemma lru_select_in_range p r :
  ordered p -> 0 < associativity p -> 0 <= r < set_count p ->
  exists v, select_way_to_evict r p = Returns v /\ 0 <= v < associativity p.
Proof.
  intros Hp Ha Hr.
  destruct (vector_at_in_range (stats p) r Hr) as [row_stats Hrow].
  destruct (ordered_row _ _ _ Hp Hrow) as (Hperm & _ & Hlen).
  unfold select_way_to_evict. rewrite Hrow.
  destruct row_stats as [| v rest]; [simpl in Hlen; lia |].
  exists v. split; [done |].
  assert (v ∈ seqZ 0 (associativity p)) as Hv by (rewrite <- Hperm; left).
  apply elem_of_seqZ in Hv. lia.
Qed.

(** X4: whatever the calls before it did in range, [select_way_to_evict]
    on a row of the cache returns one of its ways. *)
Theorem lru_victim_is_a_way assoc sc calls r :
  0 < assoc <= uint32_modulus -> 0 <= r < sc ->
  Forall (in_range assoc sc) calls ->
  exists p' v,
    run calls (new assoc sc) = (Returns tt, p') /\
    select_way_to_evict r p' = Returns v /\ 0 <= v < assoc.
Proof.
  intros Ha Hr Hcalls.
  destruct (run_in_range calls (new assoc sc)) as (p' & Hrun & Hp' & Ha' & Hs').
  { apply new_ordered. lia. }
  { rewrite new_set_count by lia. done. }
  rewrite new_set_count in Hs' by lia. simpl in Ha'.
  destruct (lru_select_in_range p' r) as (v & Hv & Hrange); [done | lia | lia |].
  exists p', v. split; [done |]. split; [done | lia].
Qed.

Lemma lru_victim_is_a_way_witness :
  exists p' v,
    run [(1, 0, true); (3, 0, false); (0, 1, true)] (new 4 2) = (Returns tt, p') /\
    select_way_to_evict 0 p' = Returns v /\ 0 <= v < 4.
Proof.
  apply (lru_victim_is_a_way 4 2 [(1, 0, true); (3, 0, false); (0, 1, true)] 0).
  - unfold uint32_modulus. lia.
  - lia.
  - repeat constructor; simpl; lia.
Defined.


(** *** What [update_stats] never does *)

Lemma pass_back_shape fuel : forall row_stats i nw way,
  length (pass_back fuel row_stats i nw way).2 = length row_stats /\
  ((pass_back fuel row_stats i nw way).1 = Returns tt \/
   (pass_back fuel row_stats i nw way).1 = Throws std_out_of_range \/
   (pass_back fuel row_stats i nw way).1 = OutOfFuel).
Proof.
  induction fuel as [| fuel IH]; intros row_stats i nw way; cbn [pass_back].
  - simpl. tauto.
  - destruct (vector_at row_stats (to_size_t i)) as [x |]; [| simpl; tauto].
    destruct (x =? way).
    + simpl. rewrite vector_set_length. tauto.
    + destruct (IH (vector_set row_stats (to_size_t i) nw) (i - 1) x way)
        as [Hlen Hout].
      rewrite vector_set_length in Hlen. done.
Qed.

Lemma pass_front_shape fuel : forall row_stats i nw way,
  length (pass_front fuel row_stats i nw way).2 = length row_stats /\
  ((pass_front fuel row_stats i nw way).1 = Returns tt \/
   (pass_front fuel row_stats i nw way).1 = Throws std_out_of_range \/
   (pass_front fuel row_stats i nw way).1 = OutOfFuel).
Proof.
  induction fuel as [| fuel IH]; intros row_stats i nw way; cbn [pass_front].
  - simpl. tauto.
  - destruct (vector_at row_stats i) as [x |]; [| simpl; tauto].
    destruct (x =? way).
    + simpl. rewrite vector_set_length. tauto.
    + destruct (IH (vector_set row_stats i nw) (to_size_t (i + 1)) x way)
        as [Hlen Hout].
      rewrite vector_set_length in Hlen. done.
Qed.

Lemma vector_at_set_other {A : Type} (v : list A) i j x :
  0 <= i -> j <> i -> vector_at (vector_set v i x) j = vector_at v j.
Proof.
  intros Hi Hne. unfold vector_at, vector_set. rewrite length_insert.
  destruct ((0 <=? j) && (j <? Z.of_nat (length v))) eqn:Hj; [| done].
  apply list_lookup_insert_ne. apply andb_prop in Hj as [Hj _]. lia.
Qed.

(** The row a call works on, before and after. *)
Lemma update_stats_row way row is_valid p row_stats :
  vector_at (stats p) row = Some row_stats ->
  exists row_stats',
    (update_stats way row is_valid p).2
    = mk (associativity p) (vector_set (stats p) row row_stats') /\
    length row_stats' = length row_stats.
Proof.
  intros Hrow. unfold update_stats. rewrite Hrow. destruct is_valid.
  - pose proof (pass_back_shape (S (length row_stats)) row_stats
                  (to_ssize_t (to_size_t (associativity p - 1)))
                  (to_uint32 way) way) as [Hlen _].
    destruct (pass_back _ _ _ _ _) as [o row_stats']. eauto.
  - pose proof (pass_front_shape (S (length row_stats)) row_stats 0
                  (to_uint32 way) way) as [Hlen _].
    destruct (pass_front _ _ _ _ _) as [o row_stats']. eauto.
Qed.

(** X5: a call of [update_stats], whatever its arguments and however it
    ends, keeps [associativity], the number of rows and the length of every
    row, and leaves every row but the addressed one, and the victim of every
    such row, as they were. *)
Theorem update_stats_keeps_shape way row is_valid p :
  let p' := (update_stats way row is_valid p).2 in
  associativity p' = associativity p /\
  set_count p' = set_count p /\
  (forall r, length <$> vector_at (stats p') r = length <$> vector_at (stats p) r) /\
  (forall r, r <> row ->
     vector_at (stats p') r = vector_at (stats p) r /\
     select_way_to_evict r p' = select_way_to_evict r p).
Proof.
  intros p'. subst p'.
  destruct (vector_at (stats p) row) as [row_stats |] eqn:Hrow.
  - destruct (update_stats_row way row is_valid p row_stats Hrow)
      as (row_stats' & -> & Hlen).
    apply vector_at_Some in Hrow as Hpos. destruct Hpos as [Hpos Hlook].
    cbn [associativity stats]. split; [done |]. split.
    { unfold set_count. simpl. by rewrite vector_set_length. }
    assert (forall r, r <> row ->
              vector_at (vector_set (stats p) row row_stats') r
              = vector_at (stats p) r) as Hother
      by (intros r Hne; by apply vector_at_set_other).
    split.
    + intros r. destruct (Z.eq_dec r row) as [-> | Hne].
      * rewrite vector_at_set_eq, Hrow; [simpl; by rewrite Hlen |].
        apply lookup_lt_Some in Hlook. lia.
      * by rewrite Hother.
    + intros r Hne. split; [by apply Hother |].
      unfold select_way_to_evict. simpl. by rewrite Hother.
  - unfold update_stats. rewrite Hrow. simpl. done.
Qed.

(** X6: on rows within [std::vector::max_size()], [update_stats] ends, for
    every state and all arguments, and ends in one of two ways: it returns,
    or it throws the sanity exception. *)
Theorem update_stats_returns_or_sanity way row is_valid p :
  Forall (fun row_stats => Z.of_nat (length row_stats) <= 2 ^ 63) (stats p) ->
  (update_stats way row is_valid p).1 = Returns tt \/
  (update_stats way row is_valid p).1 = Throws lost_the_way.
Proof.
  intros Hmax.
  pose proof (update_stats_terminates way row is_valid p Hmax) as Hends.
  unfold update_stats in *.
  destruct (vector_at (stats p) row) as [row_stats |]; [| by right].
  destruct is_valid.
  - pose proof (pass_back_shape (S (length row_stats)) row_stats
                  (to_ssize_t (to_size_t (associativity p - 1)))
                  (to_uint32 way) way) as [_ Hout].
    destruct (pass_back _ _ _ _ _) as [o row_stats']. simpl in *.
    destruct Hout as [-> | [-> | ->]]; simpl in *; tauto.
  - pose proof (pass_front_shape (S (length row_stats)) row_stats 0
                  (to_uint32 way) way) as [_ Hout].
    destruct (pass_front _ _ _ _ _) as [o row_stats']. simpl in *.
    destruct Hout as [-> | [-> | ->]]; simpl in *; tauto.
Qed.

Lemma update_stats_returns_or_sanity_witness :
  (update_stats 9 0 true (mk 3 [[2; 2; 7]; []])).1 = Returns tt \/
  (update_stats 9 0 true (mk 3 [[2; 2; 7]; []])).1 = Throws lost_the_way.
Proof.
  apply (update_stats_returns_or_sanity 9 0 true (mk 3 [[2; 2; 7]; []])).
  repeat constructor; simpl; lia.
Defined.

(** *** A way the row does not hold *)

Lemma drop_one_app {A : Type} (l k : list A) :
  l <> [] -> drop 1 (l ++ k) = drop 1 l ++ k.
Proof. by destruct l. Qed.

Lemma pass_back_lost_row pre : forall fuel written nw way,
  way ∉ pre ->
  Z.of_nat (length (pre ++ written)) < size_t_modulus ->
  (length pre < fuel)%nat ->
  pass_back fuel (pre ++ written) (Z.of_nat (length pre) - 1) nw way
  = (Throws std_out_of_range, drop 1 (pre ++ [nw]) ++ written).
Proof.
  induction pre as [| x pre IH] using rev_ind;
    intros fuel written nw way Hw Hlen Hfuel;
    (destruct fuel as [| fuel]; [simpl in Hfuel; lia |]).
  - change (Z.of_nat (@length Z []) - 1) with (-1).
    cbn [pass_back app]. rewrite to_size_t_minus_one.
    replace (vector_at written (size_t_modulus - 1)) with (@None Z); [done |].
    symmetry. apply vector_at_None. simpl in Hlen. lia.
  - rewrite elem_of_app, list_elem_of_singleton in Hw.
    rewrite !length_app in Hlen. simpl in Hlen.
    rewrite length_app in Hfuel. simpl in Hfuel.
    rewrite (drop_one_app (pre ++ [x])) by (by destruct pre).
    rewrite <- !app_assoc. cbn [app].
    rewrite length_app. simpl length.
    replace (Z.of_nat (length pre + 1) - 1) with (Z.of_nat (length pre)) by lia.
    cbn [pass_back].
    rewrite to_size_t_id by (unfold is_size_t; lia).
    rewrite vector_at_middle by done. rewrite vector_set_middle by done.
    destruct (Z.eqb_spec x way) as [-> | Hne]; [tauto |].
    rewrite IH; [| tauto | rewrite length_app; simpl; lia | lia].
    rewrite <- ?app_assoc. done.
Qed.

Lemma pass_front_lost_row rest : forall fuel written nw way,
  way ∉ rest ->
  Z.of_nat (length (written ++ rest)) < size_t_modulus ->
  (length rest < fuel)%nat ->
  pass_front fuel (written ++ rest) (Z.of_nat (length written)) nw way
  = (Throws std_out_of_range, written ++ take (length rest) (nw :: rest)).
Proof.
  induction rest as [| x rest IH]; intros fuel written nw way Hw Hlen Hfuel;
    (destruct fuel as [| fuel]; [simpl in Hfuel; lia |]).
  - cbn [pass_front].
    replace (vector_at (written ++ []) (Z.of_nat (length written)))
      with (@None Z); [done |].
    symmetry. apply vector_at_None. rewrite length_app. simpl. lia.
  - rewrite elem_of_cons in Hw.
    rewrite !length_app in Hlen. simpl in Hlen, Hfuel.
    cbn [pass_front].
    rewrite vector_at_middle by done. rewrite vector_set_middle by done.
    destruct (Z.eqb_spec x way) as [-> | Hne]; [tauto |].
    rewrite to_size_t_id by (unfold is_size_t; lia).
    replace (written ++ nw :: rest) with ((written ++ [nw]) ++ rest)
      by reassoc.
    replace (Z.of_nat (length written) + 1)
      with (Z.of_nat (length (written ++ [nw])))
      by (rewrite length_app; simpl; lia).
    rewrite IH; [| tauto | rewrite !length_app; simpl; lia | lia].
    simpl. rewrite <- ?app_assoc. done.
Qed.

Lemma lost_way_row p way r row_stats :
  ordered p -> vector_at (stats p) r = Some row_stats ->
  associativity p <= way ->
  update_stats way r true p
  = (Throws lost_the_way,
     mk (associativity p)
        (vector_set (stats p) r (drop 1 (row_stats ++ [to_uint32 way])))) /\
  update_stats way r false p
  = (Throws lost_the_way,
     mk (associativity p)
        (vector_set (stats p) r
           (take (length row_stats) (to_uint32 way :: row_stats)))).
Proof.
  intros Hp Hrow Hway.
  destruct (ordered_row _ _ _ Hp Hrow) as (Hperm & _ & Hlen).
  assert (associativity p <= uint32_modulus) as Ha by apply Hp.
  unfold uint32_modulus in Ha.
  assert (way ∉ row_stats) as Hnotin by (rewrite Hperm, elem_of_seqZ; lia).
  assert (Z.of_nat (length (row_stats ++ [])) < size_t_modulus) as Hfit.
  { rewrite app_nil_r. unfold size_t_modulus. lia. }
  unfold update_stats. rewrite Hrow. split.
  - rewrite to_ssize_t_id by lia. rewrite <- Hlen.
    pose proof (pass_back_lost_row row_stats (S (length row_stats)) []
                  (to_uint32 way) way Hnotin Hfit) as Hpass.
    rewrite !app_nil_r in Hpass. rewrite Hpass by lia. done.
  - pose proof (pass_front_lost_row row_stats (S (length row_stats)) []
                  (to_uint32 way) way Hnotin) as Hpass.
    change (Z.of_nat (@length Z [])) with 0 in Hpass. cbn [app] in Hpass.
    rewrite Hpass; [done | by rewrite app_nil_r in Hfit | lia].
Qed.

(** X7: the sanity exception for a way outside the bounds does not leave
    the row as it was.  The pass has gone through the whole row by then: a
    failed hit has dropped the victim and put the way (as [uint32_t]) at
    the back, a failed invalidation has dropped the last way and put it at
    the front. *)
Theorem lost_way_rewrites_row p way r row_stats :
  ordered p -> vector_at (stats p) r = Some row_stats ->
  associativity p <= way ->
  update_stats way r true p
  = (Throws lost_the_way,
     mk (associativity p)
        (vector_set (stats p) r (drop 1 (row_stats ++ [to_uint32 way])))) /\
  update_stats way r false p
  = (Throws lost_the_way,
     mk (associativity p)
        (vector_set (stats p) r
           (take (length row_stats) (to_uint32 way :: row_stats)))).
Proof. apply lost_way_row. Qed.

Lemma lost_way_rewrites_row_witness :
  update_stats 6 1 true (new 3 2)
  = (Throws lost_the_way,
     mk 3 (vector_set (stats (new 3 2)) 1 (drop 1 ([0; 1; 2] ++ [to_uint32 6])))) /\
  update_stats 6 1 false (new 3 2)
  = (Throws lost_the_way,
     mk 3 (vector_set (stats (new 3 2)) 1
             (take (length [0; 1; 2]) (to_uint32 6 :: [0; 1; 2])))).
Proof.
  apply (lost_way_rewrites_row (new 3 2) 6 1 [0; 1; 2]).
  - apply new_ordered. unfold uint32_modulus. lia.
  - reflexivity.
  - simpl. lia.
Defined.

(** X8: after that, the row holds the way.  The same call made again
    returns, changing nothing, and after a failed invalidation
    [select_way_to_evict] returns the way that is outside the bounds. *)
Theorem lost_way_accepted_on_retry p way r (is_valid : bool) :
  ordered p -> 0 <= r < set_count p ->
  0 < associativity p <= way -> way < uint32_modulus ->
  exists p1,
    update_stats way r is_valid p = (Throws lost_the_way, p1) /\
    update_stats way r is_valid p1 = (Returns tt, p1) /\
    (is_valid = false -> select_way_to_evict r p1 = Returns way).
Proof.
  intros Hp Hr Ha Hway.
  destruct (vector_at_in_range (stats p) r Hr) as [row_stats Hrow].
  destruct (ordered_row _ _ _ Hp Hrow) as (_ & _ & Hlen).
  destruct (lost_way_row p way r row_stats Hp Hrow) as [Hhit Hinv]; [lia |].
  rewrite to_uint32_id in Hhit, Hinv by (unfold is_uint32; lia).
  unfold uint32_modulus in Hway.
  destruct row_stats as [| x rest]; [simpl in Hlen; lia |].
  cbn [app drop] in Hhit. rewrite drop_0 in Hhit.
  cbn [take length] in Hinv. simpl length in Hlen.
  destruct is_valid.
  - eexists. split; [exact Hhit |]. split; [| done].
    assert (vector_at (vector_set (stats p) r (rest ++ [way])) r
            = Some (rest ++ [way])) as Hrow1 by (by apply vector_at_set_eq).
    unfold update_stats. cbn [stats associativity]. rewrite Hrow1.
    rewrite to_uint32_id by (unfold is_uint32, uint32_modulus; lia).
    rewrite to_ssize_t_id by lia.
    replace (associativity p - 1) with (Z.of_nat (length rest + length (@nil Z)))
      by (simpl; lia).
    pose proof (pass_back_found [] (S (length (rest ++ [way]))) rest [] way way)
      as Hpass.
    cbn [app] in Hpass. rewrite Hpass.
    + simpl. by rewrite vector_set_twice.
    + apply not_elem_of_nil.
    + rewrite length_app. simpl. unfold size_t_modulus. lia.
    + simpl. lia.
  - eexists. split; [exact Hinv |].
    assert (vector_at (vector_set (stats p) r (way :: take (length rest) (x :: rest))) r
            = Some (way :: take (length rest) (x :: rest))) as Hrow1
      by (by apply vector_at_set_eq).
    split.
    + unfold update_stats. cbn [stats associativity]. rewrite Hrow1.
      rewrite to_uint32_id by (unfold is_uint32, uint32_modulus; lia).
      pose proof (pass_front_found []
                    (S (length (way :: take (length rest) (x :: rest)))) []
                    (take (length rest) (x :: rest)) way way) as Hpass.
      change (Z.of_nat (@length Z [])) with 0 in Hpass. cbn [app] in Hpass.
      rewrite Hpass.
      * simpl. by rewrite vector_set_twice.
      * apply not_elem_of_nil.
      * simpl length. rewrite length_take. unfold size_t_modulus. lia.
      * simpl. lia.
    + intros _. unfold select_way_to_evict. cbn [stats]. by rewrite Hrow1.
Qed.

Lemma lost_way_accepted_on_retry_witness :
  exists p1,
    update_stats 6 1 false (new 3 2) = (Throws lost_the_way, p1) /\
    update_stats 6 1 false p1 = (Returns tt, p1) /\
    (false = false -> select_way_to_evict 1 p1 = Returns 6).
Proof.
  apply (lost_way_accepted_on_retry (new 3 2) 6 1 false).
  - apply new_ordered. unfold uint32_modulus. lia.
  - rewrite new_set_count; lia.
  - simpl. lia.
  - unfold uint32_modulus. lia.
Defined.

End LRUMore.

(** *** More on [CachePolicyLFU]: sequences of calls, filling, failed calls *)

Module LFUMore.
Import LFU LFUFacts.

Lemma lfu_set_count_kept p r row_stats :
  set_count (mk (vector_set (stats p) r row_stats)) = set_count p.
Proof. unfold set_count. simpl. by rewrite vector_set_length. Qed.

Lemma lfu_run_in_range assoc calls : forall p,
  counters_ok assoc p -> Forall (in_range assoc (set_count p)) calls ->
  exists p',
    run calls p = (Returns tt, p') /\
    counters_ok assoc p' /\ set_count p' = set_count p.
Proof.
  induction calls as [| [[w r] v] calls IH]; intros p Hp Hcalls.
  - by exists p.
  - apply Forall_cons in Hcalls as [[Hw Hr] Hcalls].
    destruct (lfu_update_stats_in_range assoc p w r v Hp Hw Hr)
      as (row_stats & c & _ & _ & _ & Hstep & _ & _ & _ & _ & Hp1).
    simpl in Hstep, Hp1. cbn [run]. rewrite Hstep.
    destruct (IH _ Hp1) as (p' & Hrun & Hp' & Hs').
    { by rewrite lfu_set_count_kept. }
    exists p'. split; [done |]. split; [done |].
    by rewrite Hs', lfu_set_count_kept.
Qed.

Lemma lfu_select_in_range assoc p r :
  counters_ok assoc p -> 0 < assoc -> 0 <= r < set_count p ->
  exists v, select_way_to_evict r p = Returns v /\ 0 <= v < assoc.
Proof.
  intros Hp Ha Hr.
  destruct (vector_at_in_range (stats p) r Hr) as [row_stats Hrow].
  destruct (counters_ok_row _ _ _ _ Hp Hrow) as [Hlen Hall].
  destruct (select_first_lowest p r row_stats Hrow)
    as (idx & Hsel & c & Hc & _); [| done |].
  { intros ->. simpl in Hlen. lia. }
  exists idx. split; [done |].
  apply vector_at_Some in Hc as [? Hc%lookup_lt_Some]. lia.
Qed.

(** X9: after construction and any sequence of [update_stats] calls with
    in-range [way] and [row], every call has returned, every row still holds
    [associativity] counters of type [uint32_t], and [select_way_to_evict]
    on a row of the cache returns one of its ways. *)
Theorem lfu_victim_is_a_way assoc sc calls r :
  0 < assoc -> 0 <= r < sc -> Forall (in_range assoc sc) calls ->
  exists p' v,
    run calls (new assoc sc) = (Returns tt, p') /\
    counters_ok assoc p' /\ set_count p' = sc /\
    select_way_to_evict r p' = Returns v /\ 0 <= v < assoc.
Proof.
  intros Ha Hr Hcalls.
  assert (set_count (new assoc sc) = sc) as Hsc.
  { unfold set_count. simpl. rewrite length_replicate. lia. }
  destruct (lfu_run_in_range assoc calls (new assoc sc))
    as (p' & Hrun & Hp' & Hs').
  { apply new_counters_ok. lia. }
  { by rewrite Hsc. }
  rewrite Hsc in Hs'.
  destruct (lfu_select_in_range assoc p' r) as (v & Hv & Hrange); [done | done | lia |].
  by exists p', v.
Qed.

Lemma lfu_victim_is_a_way_witness :
  exists p' v,
    run [(1, 0, true); (1, 0, true); (0, 0, true); (2, 1, false)] (new 3 2)
    = (Returns tt, p') /\
    counters_ok 3 p' /\ set_count p' = 2 /\
    select_way_to_evict 0 p' = Returns v /\ 0 <= v < 3.
Proof.
  apply (lfu_victim_is_a_way 3 2
           [(1, 0, true); (1, 0, true); (0, 0, true); (2, 1, false)] 0).
  - lia.
  - lia.
  - repeat constructor; simpl; lia.
Defined.

Lemma hits_from n : forall assoc p w r row_stats c,
  counters_ok assoc p -> 0 <= w < assoc ->
  vector_at (stats p) r = Some row_stats -> vector_at row_stats w = Some c ->
  run (replicate n (w, r, true)) p
  = (Returns tt,
     mk (vector_set (stats p) r
           (vector_set row_stats w ((c + Z.of_nat n) mod 2 ^ 32)))).
Proof.
  induction n as [| n IH]; intros assoc p w r row_stats c Hp Hw Hrow Hc.
  - simpl. pose proof (counters_ok_row _ _ _ _ Hp Hrow) as [_ Hall].
    pose proof (uint32_at _ _ _ Hall Hc) as Hrange.
    unfold is_uint32, uint32_modulus in Hrange.
    rewrite Z.add_0_r, Z.mod_small by lia.
    apply vector_at_Some in Hrow as [_ Hrow]. apply vector_at_Some in Hc as [_ Hc].
    unfold vector_set. rewrite (list_insert_id row_stats) by done.
    rewrite list_insert_id by done. by destruct p.
  - assert (0 <= r < set_count p) as Hr.
    { apply vector_at_Some in Hrow as [? Hlt%lookup_lt_Some].
      unfold set_count. lia. }
    destruct (lfu_update_stats_in_range assoc p w r true Hp Hw Hr)
      as (row0 & c0 & Hrow0 & Hc0 & _ & Hstep & Hrow1 & Hc1 & _ & _ & Hp1).
    rewrite Hrow in Hrow0. injection Hrow0 as <-.
    rewrite Hc in Hc0. injection Hc0 as <-.
    simpl in Hstep, Hrow1, Hc1, Hp1.
    cbn [replicate run]. rewrite Hstep.
    rewrite (IH assoc _ w r _ _ Hp1 Hw Hrow1 Hc1).
    simpl. rewrite !LRUMore.vector_set_twice.
    do 4 f_equal. rewrite Z.add_mod_idemp_l by lia. f_equal. lia.
Qed.

(** X10: [n] hits in a row on one way add [n] to its counter modulo [2^32]
    and change no other counter. *)
Theorem hits_add_modulo assoc p w r (n : nat) :
  counters_ok assoc p -> 0 <= w < assoc -> 0 <= r < set_count p ->
  exists row_stats c,
    vector_at (stats p) r = Some row_stats /\
    vector_at row_stats w = Some c /\
    run (replicate n (w, r, true)) p
    = (Returns tt,
       mk (vector_set (stats p) r
             (vector_set row_stats w ((c + Z.of_nat n) mod 2 ^ 32)))).
Proof.
  intros Hp Hw Hr.
  destruct (vector_at_in_range (stats p) r Hr) as [row_stats Hrow].
  destruct (counters_ok_row _ _ _ _ Hp Hrow) as [Hlen _].
  destruct (vector_at_in_range row_stats w) as [c Hc]; [lia |].
  exists row_stats, c. split; [done |]. split; [done |].
  by apply (hits_from n assoc).
Qed.

Lemma hits_add_modulo_witness :
  exists row_stats c,
    vector_at (stats (mk [[4294967294; 5]])) 0 = Some row_stats /\
    vector_at row_stats 0 = Some c /\
    run (replicate 3 (0, 0, true)) (mk [[4294967294; 5]])
    = (Returns tt,
       mk (vector_set (stats (mk [[4294967294; 5]])) 0
             (vector_set row_stats 0 ((c + Z.of_nat 3) mod 2 ^ 32)))).
Proof.
  apply (hits_add_modulo 2 (mk [[4294967294; 5]]) 0 0 3).
  - repeat constructor; unfold uint32_modulus; lia.
  - lia.
  - unfold set_count. simpl. lia.
Defined.


(** *** Filling a row *)

Lemma ones_then_zeros_at (a b : nat) :
  (0 < b)%nat ->
  vector_at (replicate a 1 ++ replicate b 0) (Z.of_nat a) = Some 0 /\
  Forall is_uint32 (replicate a 1 ++ replicate b 0) /\
  (forall j, 0 <= j < Z.of_nat a ->
     vector_at (replicate a 1 ++ replicate b 0) j = Some 1).
Proof.
  intros Hb. destruct b as [| b]; [lia |]. split; [| split].
  - cbn [replicate]. apply vector_at_middle. by rewrite length_replicate.
  - apply Forall_app. split; apply Forall_replicate;
      unfold is_uint32, uint32_modulus; lia.
  - intros j Hj. apply vector_at_Some. split; [lia |].
    rewrite lookup_app_l by (rewrite length_replicate; lia).
    apply lookup_replicate_2. lia.
Qed.

Lemma fill_ones n : forall (a b : nat) r p,
  vector_at (stats p) r = Some (replicate a 1 ++ replicate b 0) ->
  (n <= b)%nat ->
  fill n r p
  = (Returns <$> seqZ (Z.of_nat a) (Z.of_nat n),
     mk (vector_set (stats p) r
           (replicate (a + n) 1 ++ replicate (b - n) 0))).
Proof.
  induction n as [| n IH]; intros a b r p Hrow Hn.
  - simpl. rewrite Nat.add_0_r, Nat.sub_0_r.
    apply vector_at_Some in Hrow as [_ Hrow].
    unfold vector_set. rewrite list_insert_id by done. by destruct p.
  - destruct (ones_then_zeros_at a b) as (Hzero & Hall & Hones); [lia |].
    destruct (select_first_zero p r _ (Z.of_nat a) Hrow Hall Hzero)
      as (idx & Hsel & Hidx & Hle & _).
    assert (idx = Z.of_nat a) as ->.
    { destruct (Z.eq_dec idx (Z.of_nat a)) as [| Hne]; [done |].
      apply vector_at_Some in Hidx as Hpos.
      rewrite Hones in Hidx by lia. discriminate. }
    cbn [fill]. rewrite Hsel.
    unfold update_stats. rewrite Hrow, Hzero.
    destruct b as [| b]; [lia |].
    replace (vector_set (replicate a 1 ++ replicate (S b) 0) (Z.of_nat a)
               (to_uint32 (0 + 1)))
      with (replicate (S a) 1 ++ replicate b 0).
    2: { rewrite (replicate_S b), vector_set_middle by (by rewrite length_replicate).
         change (to_uint32 (0 + 1)) with 1.
         rewrite replicate_S_end, <- app_assoc. done. }
    rewrite (IH (S a) b r); [| | lia].
    + simpl stats. rewrite LRUMore.vector_set_twice.
      rewrite (seqZ_cons (Z.of_nat a) (Z.of_nat (S n))) by lia.
      replace (Z.succ (Z.of_nat a)) with (Z.of_nat (S a)) by lia.
      replace (Z.pred (Z.of_nat (S n))) with (Z.of_nat n) by lia.
      replace (S a + n)%nat with (a + S n)%nat by lia.
      replace (S b - S n)%nat with (b - n)%nat by lia. done.
    + simpl stats. apply vector_at_set_eq.
      apply vector_at_Some in Hrow as [? Hlt%lookup_lt_Some]. lia.
Qed.

(** X11: the unused ways of a fresh row are handed out before any way is
    evicted a second time: the first [n <= associativity] misses on a row
    (victim asked for, then marked valid) are served by the ways
    [0, 1, .., n-1] in this order and leave the counters [1, .., 1, 0, .., 0]. *)
Theorem fresh_row_fills_in_order (assoc n : nat) sc r :
  (n <= assoc)%nat -> 0 <= r < sc ->
  fill n r (new (Z.of_nat assoc) sc)
  = (Returns <$> seqZ 0 (Z.of_nat n),
     mk (vector_set (stats (new (Z.of_nat assoc) sc)) r
           (replicate n 1 ++ replicate (assoc - n) 0))).
Proof.
  intros Hn Hr.
  apply (fill_ones n 0 assoc r (new (Z.of_nat assoc) sc)); [| done].
  apply vector_at_Some. split; [lia |]. simpl.
  rewrite Nat2Z.id. apply lookup_replicate_2. lia.
Qed.

Lemma fresh_row_fills_in_order_witness :
  fill 3 1 (new (Z.of_nat 4) 2)
  = (Returns <$> seqZ 0 (Z.of_nat 3),
     mk (vector_set (stats (new (Z.of_nat 4) 2)) 1
           (replicate 3 1 ++ replicate (4 - 3) 0))).
Proof. apply (fresh_row_fills_in_order 4 3 2 1); lia. Defined.

(** *** Any state, any arguments *)

Lemma scan_in_range row_stats (n : nat) : forall k lowest index,
  0 <= k -> k + Z.of_nat n = Z.of_nat (length row_stats) ->
  0 <= index < Z.of_nat (length row_stats) ->
  exists idx,
    scan row_stats (seqZ k (Z.of_nat n)) lowest index = Returns idx /\
    0 <= idx < Z.of_nat (length row_stats).
Proof.
  induction n as [| n IH]; intros k lowest index Hk Hlen Hindex.
  - by exists index.
  - rewrite seqZ_cons by lia.
    replace (Z.pred (Z.of_nat (S n))) with (Z.of_nat n) by lia.
    cbn [scan].
    destruct (vector_at_in_range row_stats k) as [c Hc]; [lia |]. rewrite Hc.
    destruct (c =? 0); [exists k; split; [done | lia] |].
    destruct (lowest >? c); apply IH; lia.
Qed.

(** X12: [select_way_to_evict] in any state and for any row either returns
    the index of a counter of that row, or, when the row does not exist or
    holds no counter, throws the sanity exception; nothing else. *)
Theorem lfu_select_outcome p row :
  (exists row_stats idx,
     vector_at (stats p) row = Some row_stats /\
     select_way_to_evict row p = Returns idx /\
     0 <= idx < Z.of_nat (length row_stats)) \/
  ((vector_at (stats p) row = None \/ vector_at (stats p) row = Some []) /\
   select_way_to_evict row p = Throws lost_the_way).
Proof.
  unfold select_way_to_evict.
  destruct (vector_at (stats p) row) as [[| c0 rest] |] eqn:Hrow.
  - right. split; [by right | done].
  - left. exists (c0 :: rest).
    change (vector_at (c0 :: rest) 0) with (Some c0).
    destruct (scan_in_range (c0 :: rest) (length (c0 :: rest)) 0 c0 0)
      as (idx & Hscan & Hidx); [lia | lia | simpl; lia |].
    exists idx. rewrite Hscan. done.
  - right. split; [by left | done].
Qed.

(** X13: [update_stats] in any state and for any arguments either returns,
    having changed at most the addressed counter, or throws
    [std::out_of_range] and leaves the state as it was; the number of rows
    and of counters per row, the other rows and their victims never
    change. *)
Theorem lfu_update_stats_effect way row is_valid p :
  let o := (update_stats way row is_valid p).1 in
  let p' := (update_stats way row is_valid p).2 in
  (o = Returns tt \/ (o = Throws std_out_of_range /\ p' = p)) /\
  set_count p' = set_count p /\
  (forall r, length <$> vector_at (stats p') r = length <$> vector_at (stats p) r) /\
  (forall r, r <> row ->
     vector_at (stats p') r = vector_at (stats p) r /\
     select_way_to_evict r p' = select_way_to_evict r p) /\
  (forall row_stats row_stats' j,
     vector_at (stats p) row = Some row_stats ->
     vector_at (stats p') row = Some row_stats' ->
     j <> way -> vector_at row_stats' j = vector_at row_stats j).
Proof.
  intros o p'. subst o p'. unfold update_stats.
  destruct (vector_at (stats p) row) as [row_stats |] eqn:Hrow.
  2: { simpl. rewrite Hrow. split; [by right | done]. }
  destruct (vector_at row_stats way) as [c |] eqn:Hc.
  2: { simpl. rewrite Hrow. split; [by right |]. repeat split; try done.
       by intros rs rs' j [= <-] [= <-]. }
  apply vector_at_Some in Hrow as Hpos. destruct Hpos as [Hpos Hlook].
  apply vector_at_Some in Hc as Hposw. destruct Hposw as [Hposw _].
  set (c' := if is_valid then to_uint32 (c + 1) else 0).
  cbn [fst snd stats]. split; [by left |]. split.
  { apply lfu_set_count_kept. }
  assert (forall r, r <> row ->
            vector_at (vector_set (stats p) row (vector_set row_stats way c')) r
            = vector_at (stats p) r) as Hother
    by (intros r Hne; by apply LRUMore.vector_at_set_other).
  assert (vector_at (vector_set (stats p) row (vector_set row_stats way c')) row
          = Some (vector_set row_stats way c')) as Hrow'.
  { apply vector_at_set_eq. apply lookup_lt_Some in Hlook. lia. }
  split; [| split].
  - intros r. destruct (Z.eq_dec r row) as [-> | Hne].
    + rewrite Hrow', Hrow. simpl. by rewrite vector_set_length.
    + by rewrite Hother.
  - intros r Hne. split; [by apply Hother |].
    unfold select_way_to_evict. simpl. by rewrite Hother.
  - intros rs rs' j [= <-]. rewrite Hrow'. intros [= <-] Hne.
    by apply LRUMore.vector_at_set_other.
Qed.

End LFUMore.

(** *** More on the exception classes: who catches what *)

Module FaultMore.
Import Fault FaultFacts.

Lemma kind_base k :
  (base (SimulatorExceptionOf k) = Some SimulatorException /\ k ∉ runtime_kinds) \/
  (base (SimulatorExceptionOf k) = Some (SimulatorExceptionOf Runtime) /\
   k ∈ runtime_kinds).
Proof.
  unfold runtime_kinds.
  destruct k; simpl; rewrite ?elem_of_cons, ?not_elem_of_cons, ?elem_of_nil;
    first [ left; split; [reflexivity | intuition discriminate]
          | right; split; [reflexivity | intuition reflexivity] ].
Qed.

(** X14: among the generated classes a handler for kind [h] catches an
    exception of kind [k] exactly when [h] is [k], or [h] is [Runtime] and
    [k] is one of its seven kinds. *)
Theorem caught_by_kind h k :
  caught_by (SimulatorExceptionOf h) (SimulatorExceptionOf k) <->
  h = k \/ (h = Runtime /\ k ∈ runtime_kinds).
Proof.
  unfold caught_by. split.
  - intros Hd. apply derives_inv in Hd as [[= ->] | (b & Hb & Hd)]; [by left |].
    destruct (kind_base k) as [[Hk _] | [Hk Hin]]; rewrite Hk in Hb;
      injection Hb as <-.
    + apply simulator_exception_bases in Hd as [Hd | Hd]; discriminate.
    + apply root_bases in Hd as [[= ->] | [Hd | Hd]]; try discriminate; [| done].
      by right.
  - intros [-> | [-> Hin]]; [apply derives_refl |].
    destruct (kind_base k) as [[_ Hout] | [Hk _]]; [done |].
    eapply derives_base; [exact Hk | apply derives_refl].
Qed.

Lemma out_of_range_bases d :
  derives StdOutOfRange d ->
  d = StdOutOfRange \/ d = StdLogicError \/ d = StdException.
Proof.
  intros Hd. apply derives_inv in Hd as [<- | (b & Hb & Hd)]; [by left |].
  simpl in Hb. injection Hb as <-. right.
  apply derives_inv in Hd as [<- | (b & Hb & Hd)]; [by left |].
  simpl in Hb. injection Hb as <-. right. by apply std_exception_top.
Qed.

Lemma kind_bases k d :
  derives (SimulatorExceptionOf k) d ->
  d = SimulatorExceptionOf k \/ d = SimulatorExceptionOf Runtime \/
  d = SimulatorException \/ d = StdException.
Proof.
  intros Hd. apply derives_inv in Hd as [<- | (b & Hb & Hd)]; [by left |].
  right. destruct (kind_base k) as [[Hk _] | [Hk _]]; rewrite Hk in Hb;
    injection Hb as <-.
  - right. by apply simulator_exception_bases.
  - apply root_bases in Hd; [tauto | done].
Qed.

(** X15: every generated class is caught by a handler for
    [SimulatorException] and by one for [std::exception], and by none for
    [std::out_of_range]; the [std::out_of_range] of [std::vector::at] is
    caught by a handler for [std::exception], and by none for
    [SimulatorException] or for a generated class. *)
Theorem simulator_and_standard_exceptions k :
  caught_by SimulatorException (SimulatorExceptionOf k) /\
  caught_by StdException (SimulatorExceptionOf k) /\
  ~ caught_by StdOutOfRange (SimulatorExceptionOf k) /\
  caught_by StdException StdOutOfRange /\
  ~ caught_by SimulatorException StdOutOfRange /\
  ~ caught_by (SimulatorExceptionOf k) StdOutOfRange.
Proof.
  unfold caught_by.
  assert (derives SimulatorException StdException) as Hse
    by (eapply derives_base; [done | apply derives_refl]).
  assert (derives (SimulatorExceptionOf Runtime) SimulatorException) as Hrt
    by (eapply derives_base; [done | apply derives_refl]).
  assert (derives (SimulatorExceptionOf k) SimulatorException) as Hk.
  { destruct (kind_base k) as [[Hb _] | [Hb _]].
    - eapply derives_base; [exact Hb | apply derives_refl].
    - eapply derives_base; [exact Hb | exact Hrt]. }
  split; [done |]. split.
  { clear Hrt. induction Hk as [c | c b d Hb Hd IH]; [done |].
    eapply derives_base; [exact Hb | by apply IH]. }
  split.
  { intros Hd. apply kind_bases in Hd. intuition discriminate. }
  split.
  { eapply derives_base; [done |]. eapply derives_base; [done |].
    apply derives_refl. }
  split; intros Hd; apply out_of_range_bases in Hd; intuition discriminate.
Qed.

End FaultMore.

(** *** Exceptions that pass a [SimulatorException] handler *)

Module Escapes.
Import Fault.

Lemma out_of_range_not_simulator :
  ~ caught_by SimulatorException (exn_class std_out_of_range) /\
  caught_by StdException (exn_class std_out_of_range).
Proof.
  split.
  - intros Hd. apply FaultMore.out_of_range_bases in Hd. intuition discriminate.
  - eapply derives_base; [done |]. eapply derives_base; [done |].
    apply derives_refl.
Qed.

(** X16: [CachePolicyLRU::select_way_to_evict] in any state and for any row
    either returns the front of that row, or, when the row does not exist or
    is empty, throws an exception that a handler for [SimulatorException]
    does not catch (one for [std::exception] does). *)
Theorem lru_select_outcome p row :
  (exists v rest,
     vector_at (LRU.stats p) row = Some (v :: rest) /\
     LRU.select_way_to_evict row p = Returns v) \/
  ((vector_at (LRU.stats p) row = None \/ vector_at (LRU.stats p) row = Some []) /\
   exists e,
     LRU.select_way_to_evict row p = Throws e /\
     ~ caught_by SimulatorException (exn_class e) /\
     caught_by StdException (exn_class e)).
Proof.
  unfold LRU.select_way_to_evict.
  destruct (vector_at (LRU.stats p) row) as [[| v rest] |] eqn:Hrow.
  - right. split; [by right |]. exists std_out_of_range.
    split; [done | apply out_of_range_not_simulator].
  - left. by exists v, rest.
  - right. split; [by left |]. exists std_out_of_range.
    split; [done | apply out_of_range_not_simulator].
Qed.

(** X17: [CachePolicyLFU::update_stats] with a row or a way outside the
    bounds throws an exception that a handler for [SimulatorException] does
    not catch (one for [std::exception] does), and leaves the state as it
    was. *)
Theorem lfu_update_stats_escapes_handlers assoc p way row is_valid :
  LFU.counters_ok assoc p -> LFU.set_count p <= row \/ assoc <= way ->
  exists e,
    LFU.update_stats way row is_valid p = (Throws e, p) /\
    ~ caught_by SimulatorException (exn_class e) /\
    caught_by StdException (exn_class e).
Proof.
  intros Hp Hout. exists std_out_of_range.
  split; [by apply (LFUFacts.lfu_update_stats_escapes assoc) |].
  apply out_of_range_not_simulator.
Qed.

Lemma lfu_update_stats_escapes_handlers_witness :
  exists e,
    LFU.update_stats 5 0 true (LFU.new 2 4) = (Throws e, LFU.new 2 4) /\
    ~ caught_by SimulatorException (exn_class e) /\
    caught_by StdException (exn_class e).
Proof.
  apply (lfu_update_stats_escapes_handlers 2 (LFU.new 2 4) 5 0 true).
  - apply LFUFacts.new_counters_ok. lia.
  - right. lia.
Defined.

End Escapes.

(** *** More on [CachePolicyRAND] and on the calls through [CachePolicy] *)

Module RANDMore.
Import RAND.

Section Generator.
Context `{StdRand}.

(** X18: the victims of the random policy do not depend on the rows asked
    about nor on the [update_stats] calls in between, only on how many
    victims have been asked for. *)
Theorem evictions_ignore_arguments calls : forall p g,
  evictions calls p g
  = evictions (replicate (selects calls) (SelectWayToEvict 0)) p g.
Proof.
  induction calls as [| [way row is_valid | row] calls IH]; intros p g.
  - done.
  - simpl. apply IH.
  - simpl. unfold select_way_to_evict. destruct (rand g) as [v g'].
    destruct (associativity p =? 0); by rewrite IH.
Qed.

End Generator.
End RANDMore.

Module FactoryMore.
Import Factory.

Section Generator.
Context `{StdRand}.

Lemma drive_in_range assoc sc calls : forall p g,
  0 < assoc -> serves assoc sc p ->
  Forall (call_in_range assoc sc) calls ->
  exists victims p' g',
    drive calls p g = (Returns victims, p', g') /\
    serves assoc sc p' /\ variant p' = variant p /\
    Forall (fun v => 0 <= v < assoc) victims /\
    length victims = RAND.selects calls.
Proof.
  induction calls as [| [way row is_valid | row] calls IH];
    intros p g Ha Hp Hcalls.
  - exists [], p, g. by repeat split.
  - apply Forall_cons in Hcalls as [[Hway Hrow] Hcalls].
    assert (exists p1 g1,
              update_stats way row is_valid p g = (Returns tt, p1, g1) /\
              serves assoc sc p1 /\ variant p1 = variant p)
      as (p1 & g1 & Hstep & Hp1 & Hv1).
    { destruct p as [q | q | q]; simpl in Hp |- *.
      - by exists (PolicyRAND q), g.
      - destruct Hp as (Hq & <- & <-).
        destruct (LRUFacts.lru_update_stats_in_range q way row is_valid)
          as (q' & Hq' & Hord & Hassoc & Hsc); [done .. |].
        exists (PolicyLRU q'), g. rewrite Hq'. done.
      - destruct Hp as (Hq & <-).
        destruct (LFUFacts.lfu_update_stats_in_range assoc q way row is_valid)
          as (rs & c & _ & _ & _ & Hq' & _ & _ & _ & _ & Hok); [done .. |].
        simpl in Hq', Hok. eexists (PolicyLFU _), g. rewrite Hq'.
        split; [done |]. split; [| done]. split; [done |].
        apply LFUMore.lfu_set_count_kept. }
    cbn [drive]. rewrite Hstep.
    destruct (IH p1 g1 Ha Hp1 Hcalls) as (vs & p' & g' & Hrun & Hp' & Hv' & Hvs & Hlen).
    exists vs, p', g'. repeat split; try done. congruence.
  - apply Forall_cons in Hcalls as [Hrow Hcalls]. simpl in Hrow.
    assert (exists v g1,
              select_way_to_evict row p g = (Returns v, g1) /\ 0 <= v < assoc)
      as (v & g1 & Hsel & Hv).
    { destruct p as [q | q | q]; simpl in Hp |- *.
      - subst assoc.
        destruct (RANDFacts.select_way_to_evict_range row q g Ha)
          as (v & Hsel & Hv).
        destruct (RAND.select_way_to_evict row q g) as [o g1].
        simpl in Hsel. subst o. by exists v, g1.
      - destruct Hp as (Hq & <- & <-).
        destruct (LRUMore.lru_select_in_range q row) as (v & -> & Hv); [done .. |].
        by exists v, g.
      - destruct Hp as (Hq & <-).
        destruct (LFUMore.lfu_select_in_range assoc q row) as (v & -> & Hv);
          [done .. |].
        by exists v, g. }
    cbn [drive]. rewrite Hsel.
    destruct (IH p g1 Ha Hp Hcalls) as (vs & p' & g' & Hrun & Hp' & Hv' & Hvs & Hlen).
    rewrite Hrun. exists (v :: vs), p', g'.
    repeat split; try done; [by constructor | simpl; by rewrite Hlen].
Qed.

Lemma factory_serves config g p g' :
  0 <= associativity config <= uint32_modulus -> 0 <= set_count config ->
  get_policy_instance config g = (Some p, g') ->
  serves (associativity config) (set_count config) p /\
  variant p = replacement_policy config.
Proof.
  intros Ha Hsc. unfold get_policy_instance.
  destruct (enabled config); [| done].
  destruct (replacement_policy config); simpl; intros [= <- <-]; simpl.
  - done.
  - split; [| done]. split; [by apply LRUFacts.new_ordered |].
    split; [done | by apply LRUFacts.new_set_count].
  - split; [| done]. split; [apply LFUFacts.new_counters_ok; lia |].
    unfold LFU.set_count. simpl. rewrite length_replicate. lia.
Qed.

(** X19: under correct integration nothing is thrown.  For an enabled
    configuration with at least one way, the instance the factory builds
    takes any sequence of [update_stats] and [select_way_to_evict] calls
    with in-range arguments: every call returns, the instance stays of the
    configured class, and every victim is a way of the cache. *)
Theorem factory_instance_serves config calls g :
  enabled config = true ->
  0 < associativity config <= uint32_modulus -> 0 <= set_count config ->
  Forall (call_in_range (associativity config) (set_count config)) calls ->
  exists p g' victims p' g'',
    get_policy_instance config g = (Some p, g') /\
    drive calls p g' = (Returns victims, p', g'') /\
    variant p' = replacement_policy config /\
    Forall (fun v => 0 <= v < associativity config) victims /\
    length victims = RAND.selects calls.
Proof.
  intros Hen Ha Hsc Hcalls.
  assert (exists p g', get_policy_instance config g = (Some p, g'))
    as (p & g' & Hget).
  { unfold get_policy_instance. rewrite Hen.
    destruct (replacement_policy config); simpl; eauto. }
  destruct (factory_serves config g p g') as [Hp Hv]; [lia | done | done |].
  destruct (drive_in_range (associativity config) (set_count config) calls
              p g' (proj1 Ha) Hp Hcalls)
    as (vs & p' & g'' & Hrun & _ & Hv' & Hvs & Hlen).
  exists p, g', vs, p', g''. repeat split; try done. congruence.
Qed.

End Generator.

Lemma factory_instance_serves_witness :
  let config := {| enabled := true; associativity := 4; set_count := 2;
                   replacement_policy := RP_LRU |} in
  let calls := [RAND.SelectWayToEvict 0; RAND.UpdateStats 0 0 true;
                RAND.SelectWayToEvict 0; RAND.UpdateStats 3 1 false;
                RAND.SelectWayToEvict 1] in
  exists p g' victims p' g'',
    get_policy_instance (H := sample_rand) config 0 = (Some p, g') /\
    drive calls p g' = (Returns victims, p', g'') /\
    variant p' = replacement_policy config /\
    Forall (fun v => 0 <= v < associativity config) victims /\
    length victims = RAND.selects calls.
Proof.
  intros config calls.
  apply (@factory_instance_serves sample_rand config calls 0).
  - reflexivity.
  - simpl. unfold uint32_modulus. lia.
  - simpl. lia.
  - repeat constructor; simpl; lia.
Defined.

End FactoryMore.
